(** * The job scheduler of plot/plot_srf_perspective.py

    The script is both the coordinator ("master", taken when it is given
    command-line arguments) and the worker ("slave", taken when it is spawned
    without any).  The master owns [msg_list], [msg_deps], [nproc] and
    [in_progress]; slaves pull entries with [comm.sendrecv] until they read
    the [StopIteration] sentinel, and hand their [logbook] over in the final
    [comm.gather].

    The bodies of the jobs (GMT plotting, file input and output) are opaque
    here: only the entries that travel through the queue and the bookkeeping
    around them are embedded. *)

From stdpp Require Import prelude strings gmap.

Local Open Scope Z_scope.

(** ** Python exceptions the embedded statements can raise *)

Inductive exn := TypeError | IndexError | ValueError | NameError | ZeroDivisionError.

Inductive result (A : Type) :=
| Ok (a : A)
| Raise (e : exn).
Arguments Ok {A} a.
Arguments Raise {A} e.

Global Instance result_bind : MBind result := λ A B k r,
  match r with
  | Ok a => k a
  | Raise e => Raise e
  end.

(** ** Queue entries *)

(** The function object stored at index 0 of a queue entry. *)
Inductive func := load_xyts | load_xyts_ts | timeslice | foreign (id : nat).

(** The container of an entry: the master builds lists, and a tuple for the
    still image; a tuple has [S rest] items, the head included. *)
Inductive container := PyList | PyTuple (rest : nat).

(** [{'start': i, 'inc': nproc}], the third item of a [load_xyts_ts] entry. *)
Record shard := Shard { start : nat; inc : nat }.

(** The job dictionary of a [timeslice] entry.  [seq_] (the key 'seq', the
    name [seq] being the list function) is [None] for the
    single still image.  [sim_time] is [-1] for the frames queued before the
    loop ([None] here) and [i * 1.0 / args.framerate] for the frame [i] of the
    dynamic range ([Some i] here).  The remaining keys (azimuth, tilt, scale_t,
    transparency) are floating-point functions of these two and of constants
    of the run. *)
Record frame := Frame { seq_ : option Z; sim_time : option nat }.

(** The entries.  Whether an entry is a list or a tuple matters to one
    statement only, the slave's [print] of an entry it does not know, so the
    container is recorded for those. *)
Inductive task :=
| T_load_xyts                   (* [load_xyts, meta] *)
| T_load_xyts_ts (k : shard)    (* [load_xyts_ts, meta, {'start': i, 'inc': nproc}] *)
| T_timeslice (j : frame)       (* [timeslice, {...}, meta] *)
| T_foreign (id : nat) (c : container).  (* an entry headed by any other object *)

(** [task[0]] *)
Definition fn (t : task) : func :=
  match t with
  | T_load_xyts => load_xyts
  | T_load_xyts_ts _ => load_xyts_ts
  | T_timeslice _ => timeslice
  | T_foreign id _ => foreign id
  end.

(** What sits in [msg_list], in a slot of [in_progress], and in a reply. *)
Inductive msg :=
| PyNone                (* None: nothing to do yet *)
| StopIteration         (* the stop sentinel *)
| Entry (t : task).

Global Instance exn_eq_dec : EqDecision exn.
Proof. solve_decision. Defined.
Global Instance func_eq_dec : EqDecision func.
Proof. solve_decision. Defined.
Global Instance container_eq_dec : EqDecision container.
Proof. solve_decision. Defined.
Global Instance shard_eq_dec : EqDecision shard.
Proof. solve_decision. Defined.
Global Instance frame_eq_dec : EqDecision frame.
Proof. solve_decision. Defined.
Global Instance task_eq_dec : EqDecision task.
Proof. solve_decision. Defined.
Global Instance msg_eq_dec : EqDecision msg.
Proof. solve_decision. Defined.

(** ** The slave's logbook *)

(** [time() - t0], a wall-clock measurement; its value is an input of the
    model. *)
Definition duration := nat.

Inductive field :=
| FStr (s : string)
| FJob (j : frame)
| FTime (d : duration).

Global Instance field_eq_dec : EqDecision field.
Proof. solve_decision. Defined.

(** A logbook record is a Python tuple. *)
Definition log_entry := list field.

(** ** What the master does on the communicator *)

Inductive event :=
| EvSend (dest : nat) (m : msg)                  (* comm.send(obj = msg, dest = slave_id) *)
| EvGather (reports : list (list log_entry))     (* reports = comm.gather(None, root = MPI.ROOT) *)
| EvDisconnect.                                  (* comm.Disconnect() *)

Global Instance event_eq_dec : EqDecision event.
Proof. solve_decision. Defined.

(** ** Values fixed before the dispatch loop starts

    The script computes them from its arguments and input files before it
    spawns the slaves; a [config] stands for a start of the script that gets
    as far as the loop (when animating, the loops that build the queue
    divide by [frames - 1], by [meta['t_frames']] and by
    [meta['t_frames'] - 1.0] for each frame they queue).  [args.time] and
    [args.mtime] are floats of either sign (only [mtime <= time] is
    checked), so the two frame counts are integers.  [xpos] is a floating-point computation in the source and is
    kept abstract; it is a natural number since the simulated time of a frame
    is not negative and the time step of the file is positive. *)

Record config := Config {
  nproc0 : nat;          (* args.nproc *)
  animate : bool;        (* args.animate *)
  has_xyts : bool;       (* args.xyts != None *)
  frames0 : Z;           (* int(args.time * args.framerate) *)
  t_frames : Z;          (* meta['t_frames'] = int(args.mtime * args.framerate) *)
  frames_sr : nat;       (* frames containing slip rates *)
  nt : nat;              (* xfile.nt *)
  xpos : nat → nat       (* i ↦ int(round((i * 1.0 / args.framerate) / xfile.dt)) *)
}.

(** [frames] once the loop runs: [frames += meta['t_frames']]. *)
Definition frames (cfg : config) : Z := frames0 cfg + t_frames cfg.

(** [xrange(n)]: empty when [n] is not positive. *)
Definition xrange (n : Z) : list Z := Z.of_nat <$> seq 0 (Z.to_nat n).

(** ** The master *)

Record master := Master {
  msg_list : list msg;       (* list of work for slaves to do *)
  msg_deps : Z;              (* dependencies for tasks yet to be added *)
  nproc : nat;               (* slaves that have not been stopped *)
  in_progress : list msg;    (* job tracking *)
  comm : list event          (* communicator calls made so far, oldest first *)
}.

Definition set_msg_list (l : list msg) (m : master) : master :=
  Master l (msg_deps m) (nproc m) (in_progress m) (comm m).
Definition set_msg_deps (d : Z) (m : master) : master :=
  Master (msg_list m) d (nproc m) (in_progress m) (comm m).
Definition set_nproc (n : nat) (m : master) : master :=
  Master (msg_list m) (msg_deps m) n (in_progress m) (comm m).
Definition set_in_progress (l : list msg) (m : master) : master :=
  Master (msg_list m) (msg_deps m) (nproc m) l (comm m).
Definition set_comm (l : list event) (m : master) : master :=
  Master (msg_list m) (msg_deps m) (nproc m) (in_progress m) l.

(** [msg_list.append(x)] *)
Definition append (x : msg) (m : master) : master :=
  set_msg_list (msg_list m ++ [x]) m.

(** [x in range(lo, hi, step)] for a positive [step]. *)
Definition in_range (lo hi step x : nat) : bool :=
  bool_decide (lo ≤ x)%nat && bool_decide (x < hi)%nat
  && bool_decide ((x - lo) mod step = 0)%nat.

(** The entries appended when [load_xyts] is seen finished:
    [for i in xrange(nproc): msg_list.append([load_xyts_ts, meta, {'start':i, 'inc':nproc}])] *)
Definition shards (n : nat) : list msg :=
  (λ i, Entry (T_load_xyts_ts (Shard i n))) <$> seq 0 n.

(** The frame indices [i] of [xrange(frames_sr)] with [xpos in ready], where
    [ready = range(finished[2]['start'], xfile.nt, nproc)]. *)
Definition ready_frames (cfg : config) (k : shard) (n : nat) : list nat :=
  filter (λ i, in_range (start k) (nt cfg) n (xpos cfg i) = true)
         (seq 0 (frames_sr cfg)).

(** The [timeslice] entry of the dynamic frame [i]. *)
Definition dyn_frame (cfg : config) (i : nat) : msg :=
  Entry (T_timeslice (Frame (Some (frames cfg + Z.of_nat i)) (Some i))).

(** Dependency tracking: the [if finished == None ... elif ... elif ...] chain.
    [finished[0]] raises a TypeError on the class [StopIteration]; [xfile]
    exists only when an xyts file was given and [range] refuses a zero step.
    For the first frame that is ready, [scale_t = min(float(i),
    meta['t_frames']) / meta['t_frames']] divides by zero when
    [meta['t_frames']] is 0, and the entry then built reads [frames], a name
    bound only when animating; both come before anything is appended.  The
    assignment to [meta['xyts_cpt_max']] in the [load_xyts] branch reads a
    file the job wrote and leaves the bookkeeping alone. *)
Definition resolve (cfg : config) (finished : msg) (m : master) : result master :=
  match finished with
  | PyNone => Ok m
  | StopIteration => Raise TypeError
  | Entry T_load_xyts =>
      let m := set_msg_deps (msg_deps m - 1) m in
      let m := set_msg_list (msg_list m ++ shards (nproc m)) m in
      Ok (set_msg_deps (msg_deps m + Z.of_nat (nproc m)) m)
  | Entry (T_load_xyts_ts k) =>
      if negb (has_xyts cfg) then Raise NameError
      else if decide (nproc m = 0%nat) then Raise ValueError
      else
        let new := ready_frames cfg k (nproc m) in
        if negb (bool_decide (new = [])) && bool_decide (t_frames cfg = 0)
        then Raise ZeroDivisionError
        else if negb (bool_decide (new = [])) && negb (animate cfg)
        then Raise NameError
        else
          let m := set_msg_list (msg_list m ++ (dyn_frame cfg <$> new)) m in
          Ok (set_msg_deps (msg_deps m - 1) m)
  | Entry _ => Ok m
  end.

(** [if len(msg_list) == 0: ...] *)
Definition refill (m : master) : master :=
  if decide (length (msg_list m) = 0%nat) then
    if decide (msg_deps m = 0) then
      (* all jobs complete, kill off slaves *)
      set_nproc (nproc m - 1)%nat (append StopIteration m)
    else
      (* waiting for dependencies *)
      append PyNone m
  else m.

(** [msg = msg_list[0]; del(msg_list[0])] *)
Definition next_job (m : master) : result (msg * master) :=
  match msg_list m with
  | [] => Raise IndexError
  | x :: q => Ok (x, set_msg_list q m)
  end.

(** [comm.send(obj = msg, dest = slave_id)] *)
Definition send (slave_id : nat) (x : msg) (m : master) : master :=
  set_comm (comm m ++ [EvSend slave_id x]) m.

(** [in_progress[slave_id] = msg]; [slave_id] is in range here, the pass
    having read [in_progress[slave_id]] before. *)
Definition track (slave_id : nat) (x : msg) (m : master) : master :=
  set_in_progress (<[slave_id := x]> (in_progress m)) m.

(** The statements of one pass up to and including the send; the result is
    the message sent and the master's state at that moment. *)
Definition serve (cfg : config) (slave_id : nat) (m : master) : result (msg * master) :=
  finished ← from_option Ok (Raise IndexError) (in_progress m !! slave_id);
  m1 ← resolve cfg finished m;
  p ← next_job (refill m1);
  Ok (p.1, send slave_id p.1 p.2).

(** One pass of the body of [while nproc:], for a request that arrived from
    [slave_id]. *)
Definition master_iter (cfg : config) (slave_id : nat) (m : master) : result (msg * master) :=
  p ← serve cfg slave_id m;
  Ok (p.1, track slave_id p.1 p.2).

(** The queue built before the loop: [load_xyts] if an xyts file was given,
    then the frames [i] of [xrange(frames)] and the frames [frames + i] of
    [xrange(meta['t_frames'])], [frames] being [int(args.time *
    args.framerate)] there. *)
Definition static_frame (i : Z) : msg :=
  Entry (T_timeslice (Frame (Some i) None)).

Definition initial_msg_list (cfg : config) : list msg :=
  if animate cfg then
    (if has_xyts cfg then [Entry T_load_xyts] else [])
    ++ (static_frame <$> xrange (frames0 cfg))
    ++ (static_frame <$> ((λ i, frames0 cfg + i) <$> xrange (t_frames cfg)))
  else [Entry (T_timeslice (Frame None None))].

Definition initial_msg_deps (cfg : config) : Z :=
  if has_xyts cfg && animate cfg then 1 else 0.

Definition master_init (cfg : config) : master :=
  Master (initial_msg_list cfg) (initial_msg_deps cfg) (nproc0 cfg)
         (replicate (nproc0 cfg) PyNone) [].

(** ** The slave *)

Record slave := Slave {
  logbook : list log_entry;
  executed : list msg;       (* tasks whose handler was called, oldest first *)
  stdout : list msg;         (* tasks reported as unknown by [print] *)
  looping : bool;            (* still inside the [for task in iter(...)] loop *)
  raised : option exn        (* the exception that ended the process, if any *)
}.

Definition slave_init : slave := Slave [] [] [] true None.

(** ['... %s.' % (task)]: [(task)] is [task] itself, so a tuple is taken as
    the tuple of arguments of the format, which has one place: a tuple of
    any other length raises a TypeError.  A list is one argument. *)
Definition formats (c : container) : bool :=
  match c with
  | PyList => true
  | PyTuple rest => bool_decide (rest = 0%nat)
  end.

(** What a slave does with the reply to its [comm.sendrecv]; [d] is the time
    the branch took.  [iter(f, StopIteration)] ends the loop on the sentinel;
    an exception that nothing catches ends the process. *)
Definition slave_iter (reply : msg) (d : duration) (sl : slave) : slave :=
  match reply with
  | StopIteration => Slave (logbook sl) (executed sl) (stdout sl) false (raised sl)
  | PyNone =>
      Slave (logbook sl ++ [[FStr "sleep"; FTime d]]) (executed sl) (stdout sl)
            (looping sl) (raised sl)
  | Entry T_load_xyts                     (* task[0] is load_xyts *)
  | Entry (T_load_xyts_ts _) =>           (* task[0] is load_xyts_ts *)
      Slave (logbook sl) (executed sl ++ [reply]) (stdout sl) (looping sl) (raised sl)
  | Entry (T_timeslice j) =>              (* task[0] is timeslice *)
      Slave (logbook sl ++ [[FStr "timeslice"; FJob j; FTime d]])
            (executed sl ++ [reply]) (stdout sl) (looping sl) (raised sl)
  | Entry (T_foreign _ c) =>              (* else: print(...) *)
      if formats c then
        Slave (logbook sl) (executed sl) (stdout sl ++ [reply]) (looping sl) (raised sl)
      else
        Slave (logbook sl) (executed sl) (stdout sl) false (Some TypeError)
  end.

(** ** Master and slaves together *)

Record system := System { coord : master; slaves : list slave }.

Definition initial (cfg : config) : system :=
  System (master_init cfg) (replicate (nproc0 cfg) slave_init).

(** Slave [w] is blocked in, or will come back to, [comm.sendrecv]. *)
Definition alive (s : system) (w : nat) : bool :=
  match slaves s !! w with
  | Some sl => looping sl
  | None => false
  end.

(** The master receives the request of slave [w], answers it, and the slave
    works the answer off (taking [d]). *)
Definition request (cfg : config) (w : nat) (d : duration) (s : system) : result system :=
  p ← master_iter cfg w (coord s);
  Ok (System p.2 (alter (slave_iter p.1 d) w (slaves s))).

(** [while nproc:] *)
Definition loop_guard (m : master) : bool := negb (bool_decide (nproc m = 0%nat)).

(** A request is taken when the loop is still running and comes from a slave
    that is still asking. *)
Definition enabled (s : system) (w : nat) : bool :=
  loop_guard (coord s) && alive s w.

Inductive reachable (cfg : config) : system → Prop :=
| reach_init : reachable cfg (initial cfg)
| reach_request s w d s' :
    reachable cfg s →
    enabled s w = true →
    request cfg w d s = Ok s' →
    reachable cfg s'.

(** A slave that has left its loop by the sentinel goes on to
    [comm.gather(sendobj = logbook, root = MASTER)]; one that was ended by an
    exception never does. *)
Definition gathers (sl : slave) : bool :=
  negb (looping sl) && bool_decide (raised sl = None).

(** After the loop: the collective gather completes once every slave has
    called it; then the master disconnects. *)
Definition finish (s : system) : option system :=
  if loop_guard (coord s) then None
  else if forallb gathers (slaves s) then
    Some (System (set_comm (comm (coord s)
                            ++ [EvGather (logbook <$> slaves s); EvDisconnect])
                           (coord s))
                 (slaves s))
  else None.

(** An unending sequence of arrivals: slot [t] names the slave whose request
    is looked at and how long its last branch took.  A slot naming a slave
    that has nothing to ask, or falling after the loop, changes nothing. *)
Definition tick (cfg : config) (s : system) (r : nat * duration) : result system :=
  if enabled s r.1 then request cfg r.1 r.2 s else Ok s.

(** The run under a schedule, slot by slot: the state, and the exception
    that ended the master if a pass raised one.  Nothing is served after
    that. *)
Fixpoint run (cfg : config) (sched : nat → nat * duration) (n : nat)
  : system * option exn :=
  match n with
  | O => (initial cfg, None)
  | S n' =>
      let p := run cfg sched n' in
      match p.2 with
      | Some _ => p
      | None =>
          match tick cfg p.1 (sched n') with
          | Ok s' => (s', None)
          | Raise e => (p.1, Some e)
          end
      end
  end.

(** The state after [n] slots. *)
Definition exec (cfg : config) (sched : nat → nat * duration) (n : nat) : system :=
  (run cfg sched n).1.

(** Every slave gets its turn again and again. *)
Definition fair (cfg : config) (sched : nat → nat * duration) : Prop :=
  ∀ (w t : nat), (w < nproc0 cfg)%nat → ∃ t', (t ≤ t')%nat ∧ (sched t').1 = w.

(** How many times [x] was sent to slave [w]. *)
Definition times_sent (x : msg) (w : nat) (m : master) : nat :=
  length (filter (λ e, e = EvSend w x) (comm m)).

(** The replies in the order they were sent. *)
Definition replies (m : master) : list msg :=
  omap (λ e, match e with EvSend _ x => Some x | _ => None end) (comm m).

(** ** Bookkeeping notions used by the statements *)

(** Entries whose completion the master reacts to by queueing more work. *)
Definition generator (x : msg) : bool :=
  match x with
  | Entry T_load_xyts | Entry (T_load_xyts_ts _) => true
  | _ => false
  end.

Definition gens (l : list msg) : nat :=
  sum_list_with (λ x, if generator x then 1%nat else 0%nat) l.

(** [None] and [StopIteration], as opposed to a job. *)
Definition sentinel (x : msg) : bool :=
  match x with
  | Entry _ => false
  | _ => true
  end.

(** The jobs the master itself builds for a run with [nproc0 cfg] slaves. *)
Definition job_ok (cfg : config) (x : msg) : Prop :=
  match x with
  | Entry T_load_xyts => True
  | Entry (T_load_xyts_ts k) => inc k = nproc0 cfg ∧ (start k < nproc0 cfg)%nat
  | Entry (T_timeslice _) => True
  | _ => False
  end.

Definition slot_ok (cfg : config) (x : msg) : Prop :=
  x = PyNone ∨ x = StopIteration ∨ job_ok cfg x.

Definition running (sl : slave) : nat := if looping sl then 1%nat else 0%nat.

(** The two shapes of logbook record the slave writes. *)
Definition sleep_record (e : log_entry) : Prop :=
  ∃ d, e = [FStr "sleep"; FTime d].
Definition timeslice_record (e : log_entry) : Prop :=
  ∃ j d, e = [FStr "timeslice"; FJob j; FTime d].
(** A record made of a kind and a duration and nothing else. *)
Definition kind_duration_record (e : log_entry) : Prop :=
  ∃ k d, e = [FStr k; FTime d].

Definition log_ok (l : list log_entry) : Prop :=
  Forall (λ e, sleep_record e ∨ timeslice_record e) l.

(** Work still ahead of an entry: [flight] once it is handed out, [queued]
    while it waits in [msg_list].  A generator outweighs all it can queue. *)
Definition flight (cfg : config) (x : msg) : nat :=
  match x with
  | PyNone | StopIteration => 0
  | Entry T_load_xyts => 1 + nproc0 cfg * (2 + 2 * frames_sr cfg)
  | Entry (T_load_xyts_ts _) => 1 + 2 * frames_sr cfg
  | Entry _ => 1
  end%nat.

Definition queued (cfg : config) (x : msg) : nat := S (flight cfg x).

Definition potential (cfg : config) (m : master) : nat :=
  (sum_list_with (queued cfg) (msg_list m)
   + sum_list_with (flight cfg) (in_progress m) + nproc m)%nat.

(** What holds of the master and its slaves between two passes of the loop. *)
Record inv (cfg : config) (s : system) : Prop := Inv {
  inv_slots_len : length (in_progress (coord s)) = nproc0 cfg;
  inv_slaves_len : length (slaves s) = nproc0 cfg;
  inv_queue : Forall (job_ok cfg) (msg_list (coord s));
  inv_slots : Forall (slot_ok cfg) (in_progress (coord s));
  inv_deps :
    msg_deps (coord s)
    = Z.of_nat (gens (msg_list (coord s)) + gens (in_progress (coord s)));
  inv_gen_cfg :
    (0 < gens (msg_list (coord s)) + gens (in_progress (coord s)))%nat →
    has_xyts cfg = true ∧ animate cfg = true;
  inv_nproc : nproc (coord s) = sum_list_with running (slaves s);
  inv_drain :
    (nproc (coord s) < nproc0 cfg)%nat →
    msg_list (coord s) = [] ∧ msg_deps (coord s) = 0;
  inv_stopped : ∀ w sl, slaves s !! w = Some sl →
    (looping sl = false ↔ in_progress (coord s) !! w = Some StopIteration);
  inv_stops : ∀ w sl, slaves s !! w = Some sl →
    times_sent StopIteration w (coord s) = (1 - running sl)%nat;
  inv_raised : Forall (λ sl, raised sl = None) (slaves s)
}.

(** The state of the master right after dependency tracking in a pass that
    serves slave [w]. *)
Definition tracked (cfg : config) (s : system) (w : nat) (m1 : master) : Prop :=
  ∃ finished, in_progress (coord s) !! w = Some finished
              ∧ resolve cfg finished (coord s) = Ok m1.

(** A slave whose next request moves the run forward. *)
Definition progressive (s : system) (p : nat) : Prop :=
  alive s p = true
  ∧ (msg_list (coord s) ≠ [] ∨ msg_deps (coord s) = 0
     ∨ ∃ t, in_progress (coord s) !! p = Some (Entry t)).

(** ** Sample runs *)

(** One slave and a single still image. *)
Definition still_cfg : config := Config 1 false false 0 2 0 0 (λ i, i).

(** Two slaves, an animation over an xyts file with five timeslices. *)
Definition movie_cfg : config := Config 2 true true 2 2 6 5 (λ i, i / 2)%nat.

(** Three slaves and an animation of ten frames, no xyts file. *)
Definition no_xyts_cfg : config := Config 3 true false 8 2 0 0 (λ i, i).

(** The slaves ask in turn. *)
Definition round_robin (n : nat) (t : nat) : nat * duration := ((t mod n)%nat, 1%nat).

(** ** Further notions about a run *)

(** The messages sent to slave [w], oldest first. *)
Definition sent_to (w : nat) (m : master) : list msg :=
  omap (λ e, match e with
             | EvSend w' x => if decide (w' = w) then Some x else None
             | _ => None
             end) (comm m).

(** Replies for which the slave calls one of its three handlers. *)
Definition handled (x : msg) : bool :=
  match x with
  | Entry T_load_xyts | Entry (T_load_xyts_ts _) | Entry (T_timeslice _) => true
  | _ => false
  end.

Definition is_frame (x : msg) : bool :=
  match x with
  | Entry (T_timeslice _) => true
  | _ => false
  end.

(** The frame dictionaries among a list of entries. *)
Definition frames_in (l : list msg) : list frame :=
  omap (λ x, match x with Entry (T_timeslice j) => Some j | _ => None end) l.

(** [timeslice]: [i = 0] if [job['seq'] == None], else [i = job['seq']]; [i]
    names the working directory ['_%.4d_' % i] of the job. *)
Definition swd_index (j : frame) : Z :=
  match seq_ j with
  | None => 0
  | Some i => i
  end.

(** The records of a logbook, read back. *)
Definition is_sleep (e : log_entry) : bool :=
  match e with
  | [FStr s; FTime _] => bool_decide (s = "sleep")
  | _ => false
  end.

Definition logged_frame (e : log_entry) : option frame :=
  match e with
  | [FStr _; FJob j; FTime _] => Some j
  | _ => None
  end.

(** [list(xrange(lo, hi, step))] for a positive [step]: the timeslices
    [load_xyts_ts] works through with [lo = job['start']], [hi = xfile.nt],
    [step = job['inc']]. *)
Definition py_range (lo hi step : nat) : list nat :=
  (λ j, lo + j * step)%nat <$> seq 0 ((hi - lo + step - 1) / step)%nat.

(** The [timeslice] entries an entry gives rise to once it is seen finished. *)
Definition shard_frames (cfg : config) (k : shard) : list msg :=
  dyn_frame cfg <$> ready_frames cfg k (nproc0 cfg).

Definition desc (cfg : config) (x : msg) : list msg :=
  match x with
  | Entry T_load_xyts =>
      seq 0 (nproc0 cfg) ≫= (λ i, shard_frames cfg (Shard i (nproc0 cfg)))
  | Entry (T_load_xyts_ts k) => shard_frames cfg k
  | _ => []
  end.

(** The [timeslice] entries a queued entry stands for: itself, if it is one,
    and those it gives rise to. *)
Definition yield (cfg : config) (x : msg) : list msg :=
  (if is_frame x then [x] else []) ++ desc cfg x.

(** All [timeslice] entries of a run. *)
Definition all_frames (cfg : config) : list msg :=
  initial_msg_list cfg ≫= yield cfg.

(** The same, written out: the frames queued before the loop, then the
    dynamic frames whose timeslice exists in the xyts file. *)
Definition expected_frames (cfg : config) : list msg :=
  if animate cfg then
    (static_frame <$> xrange (frames0 cfg))
    ++ (static_frame <$> ((λ i, frames0 cfg + i) <$> xrange (t_frames cfg)))
    ++ (if has_xyts cfg then
          dyn_frame cfg <$> filter (λ i, xpos cfg i < nt cfg)%nat (seq 0 (frames_sr cfg))
        else [])
  else [Entry (T_timeslice (Frame None None))].

(** Everything that was ever put on the queue, in the order it was put
    there: what was sent already, then what still waits. *)
Definition history (m : master) : list msg :=
  filter (λ x, sentinel x = false) (replies m) ++ msg_list m.

(** An animation with an xyts file and no transition frames
    ([-a -x f -t 0 -m 0]): nothing is queued before the loop but
    [load_xyts], and [meta['t_frames']] is 0. *)
Definition zero_cfg : config := Config 1 true true 0 0 6 5 (λ i, i / 2)%nat.

(** Slave 0 asks once and is then busy; slave 1 keeps asking. *)
Definition idle_second (t : nat) : nat * duration :=
  (match t with O => 0%nat | S _ => 1%nat end, 1%nat).

(** An entry the master has seen finished: it was sent to a slave, and that
    slave has asked again since (a slave asks again only when the handler of
    its last reply has returned). *)
Definition seen_finished (m : master) (x : msg) : Prop :=
  ∃ w pre y post, sent_to w m = pre ++ x :: y :: post.

(** ** After the loop: putting the image sequence together

    The images of a run sit in the working directory [gmt_temp] as
    ['%s/%s_perspective_%.4d.png' % (gmt_temp, basename, i)]: their names
    differ in the number [i] only, and ['%.4d'] prints different numbers
    differently.  The working directory is a map from [i] to the content of
    the image of that name, if the file exists. *)

Section assemble.
Context {A : Type}.

(** [shutil.copy(src, dst)] between two image names: raises ([None] here)
    when [src] does not exist or when both names are the same file;
    otherwise [dst] is created or overwritten. *)
Definition copy (src dst : Z) (fs : gmap Z A) : option (gmap Z A) :=
  v ← fs !! src;
  if decide (src = dst) then None else Some (<[dst := v]> fs).

(** [shutil.move(src, dst)] between two image names: raises when [src] does
    not exist; otherwise renames, replacing [dst] (renaming a file to itself
    changes nothing). *)
Definition move (src dst : Z) (fs : gmap Z A) : option (gmap Z A) :=
  v ← fs !! src;
  Some (<[dst := v]> (delete src fs)).

(** [for i in l: body(i)], stopping at the first exception. *)
Fixpoint for_each (l : list Z) (body : Z → gmap Z A → option (gmap Z A))
    (fs : gmap Z A) : option (gmap Z A) :=
  match l with
  | [] => Some fs
  | i :: l => fs' ← body i fs; for_each l body fs'
  end.

(** [xrange(n - 1, -1, -1)] *)
Definition xrange_down (n : Z) : list Z := reverse (xrange n).

(** The three loops under [if args.animate:], with [frames] the counter
    after [frames += frames_sr], [frames_start = int(args.delay *
    args.framerate)] and [frames_end = int(args.end * args.framerate)]. *)
Definition assemble (frames frames_start frames_end : Z) (fs : gmap Z A)
  : option (gmap Z A) :=
  (* copy last frame *)
  fs ← for_each (xrange frames_end)
         (λ i, copy (frames - 1) (frames + frames_start + i)) fs;
  (* shift sequence *)
  fs ← for_each (xrange_down frames) (λ i, move i (frames_start + i)) fs;
  (* copy first frame *)
  for_each (xrange frames_start) (λ i, copy frames_start i) fs.

(** The statements between [comm.Disconnect()] and [gmt.make_movie].
    [frames += frames_sr] comes first: the name [frames] is bound only
    under [args.animate], so the still-image run raises a NameError there,
    before it reaches its own [move]. *)
Definition after_loop (cfg : config) (frames_start frames_end : Z) (fs : gmap Z A)
  : option (gmap Z A) :=
  if animate cfg then
    assemble (frames cfg + Z.of_nat (frames_sr cfg)) frames_start frames_end fs
  else None.

End assemble.

(** What an entry that was ever queued depends on: a [load_xyts_ts] entry on
    [load_xyts], a frame of the dynamic range on the [load_xyts_ts] entry
    whose loop [for t in xrange(job['start'], xfile.nt, job['inc'])] goes
    through the timeslice of the frame. *)
Definition gated (cfg : config) (m : master) (x : msg) : Prop :=
  match x with
  | Entry (T_load_xyts_ts k) =>
      seen_finished m (Entry T_load_xyts)
  | Entry (T_timeslice j) =>
      ∀ i, sim_time j = Some i →
        seq_ j = Some (frames cfg + Z.of_nat i)
        ∧ ∃ k, seen_finished m (Entry (T_load_xyts_ts k))
               ∧ xpos cfg i ∈ py_range (start k) (nt cfg) (inc k)
  | _ => True
  end.

(** The timeslices the handler of an entry prepares: the loop
    [for t in xrange(job['start'], xfile.nt, job['inc'])] of [load_xyts_ts]. *)
Definition ts_loop (cfg : config) (x : msg) : list nat :=
  match x with
  | Entry (T_load_xyts_ts k) => py_range (start k) (nt cfg) (inc k)
  | _ => []
  end.

(** * Lemmas *)

(** ** Sums over lists *)

Section sums.
Context {A : Type} (f : A → nat).

Lemma sum_list_with_insert (l : list A) (i : nat) (x y : A) :
  l !! i = Some x →
  (sum_list_with f (<[i := y]> l) + f x = sum_list_with f l + f y)%nat.
Proof.
  revert i. induction l as [|a l IH]; intros [|i] Hi; simplify_eq/=; [lia|].
  specialize (IH _ Hi). lia.
Qed.

Lemma sum_list_with_lookup_le (l : list A) (i : nat) (x : A) :
  l !! i = Some x → (f x ≤ sum_list_with f l)%nat.
Proof.
  revert i. induction l as [|a l IH]; intros [|i] Hi; simplify_eq/=; [lia|].
  specialize (IH _ Hi). lia.
Qed.

Lemma sum_list_with_pos (l : list A) :
  (0 < sum_list_with f l)%nat → ∃ i x, l !! i = Some x ∧ (0 < f x)%nat.
Proof.
  induction l as [|a l IH]; simpl; [lia|]. intros H.
  destruct (decide (0 < f a)%nat) as [Ha|Ha].
  - by exists 0%nat, a.
  - destruct IH as (i & x & Hi & Hx); [lia|]. by exists (S i), x.
Qed.

Lemma sum_list_with_zero (l : list A) :
  sum_list_with f l = 0%nat ↔ Forall (λ x, f x = 0%nat) l.
Proof.
  induction l as [|a l IH]; simpl; [by split|].
  rewrite Forall_cons, <- IH. lia.
Qed.

Lemma sum_list_with_bound (c : nat) (l : list A) :
  (∀ x, f x ≤ c)%nat → (sum_list_with f l ≤ length l * c)%nat.
Proof.
  intros Hf. induction l as [|a l IH]; simpl; [lia|]. specialize (Hf a). lia.
Qed.

Lemma sum_list_with_const (c : nat) (l : list A) :
  Forall (λ x, f x = c) l → sum_list_with f l = (length l * c)%nat.
Proof. induction 1 as [|a l Ha _ IH]; simpl; [done|]. rewrite IH, Ha. lia. Qed.

Lemma sum_list_with_replicate (n : nat) (x : A) :
  sum_list_with f (replicate n x) = (n * f x)%nat.
Proof. induction n as [|n IH]; simpl; [done|]. rewrite IH. lia. Qed.
End sums.

Lemma list_alter_lookup {A} (f : A → A) (l : list A) (i : nat) (x : A) :
  l !! i = Some x → alter f i l = <[i := f x]> l.
Proof.
  revert i. induction l as [|a l IH]; intros [|i] Hi; simplify_eq/=; [done|].
  f_equal. by apply IH.
Qed.

(** ** Counting generators *)

Lemma gens_app l1 l2 : gens (l1 ++ l2) = (gens l1 + gens l2)%nat.
Proof. apply sum_list_with_app. Qed.

Lemma gens_cons x l : gens (x :: l) = (gens [x] + gens l)%nat.
Proof. unfold gens. simpl. lia. Qed.

Lemma gens_single x : gens [x] = if generator x then 1%nat else 0%nat.
Proof. unfold gens. simpl. lia. Qed.

Lemma gens_lookup_le l i x : l !! i = Some x → (gens [x] ≤ gens l)%nat.
Proof.
  intros Hi. rewrite gens_single.
  apply (sum_list_with_lookup_le (λ x, if generator x then 1%nat else 0%nat) _ _ _ Hi).
Qed.

Lemma gens_insert l i x y :
  l !! i = Some x → (gens (<[i := y]> l) + gens [x] = gens l + gens [y])%nat.
Proof.
  intros Hi. rewrite !gens_single.
  apply (sum_list_with_insert (λ x, if generator x then 1%nat else 0%nat) _ _ _ y Hi).
Qed.

Lemma gens_zero l : gens l = 0%nat ↔ ∀ x, x ∈ l → generator x = false.
Proof.
  unfold gens. rewrite sum_list_with_zero, Forall_forall.
  split; intros Hl x Hx; specialize (Hl x Hx); by destruct (generator x).
Qed.

Lemma gens_fmap_zero {B} (g : B → msg) (l : list B) :
  (∀ b, generator (g b) = false) → gens (g <$> l) = 0%nat.
Proof.
  intros Hg. apply gens_zero. intros x (b & -> & _)%list_elem_of_fmap. apply Hg.
Qed.

(** ** Membership in a stepped range *)

Lemma in_range_spec lo hi n x :
  (lo < n)%nat →
  in_range lo hi n x = true ↔ (x mod n = lo ∧ x < hi)%nat.
Proof.
  intros Hlo. unfold in_range.
  rewrite !andb_true_iff, !bool_decide_eq_true. split.
  - intros [[Hle Hhi] Hmod]. split; [|done].
    apply Nat.Lcm0.mod_divide in Hmod as [a Ha].
    replace x with (lo + a * n)%nat by lia.
    rewrite Nat.Div0.mod_add. by apply Nat.mod_small.
  - intros [Hmod Hhi].
    pose proof (Nat.Div0.div_mod x n) as Hdm. rewrite Hmod in Hdm.
    split_and!; [lia|done|].
    replace (x - lo)%nat with (x `div` n * n)%nat by lia.
    apply Nat.Div0.mod_mul.
Qed.

Lemma in_range_disjoint hi n i j x :
  (i < n)%nat → (j < n)%nat →
  in_range i hi n x = true → in_range j hi n x = true → i = j.
Proof.
  intros Hi Hj [Hx _]%in_range_spec [Hy _]%in_range_spec; [congruence|done..].
Qed.

(** ** The slave's side *)

Lemma slot_ok_known cfg x :
  slot_ok cfg x → ∀ id c, x ≠ Entry (T_foreign id c).
Proof. intros [->|[->|Hj]] id c; [done..|]. by intros ->. Qed.

Lemma looping_slave_iter x d sl :
  (∀ id c, x ≠ Entry (T_foreign id c)) →
  looping (slave_iter x d sl)
  = if decide (x = StopIteration) then false else looping sl.
Proof. intros Hk. destruct x as [| |[|k|j|id c]]; try done. by destruct (Hk id c). Qed.

Lemma raised_slave_iter x d sl :
  (∀ id c, x ≠ Entry (T_foreign id c)) →
  raised (slave_iter x d sl) = raised sl.
Proof. intros Hk. destruct x as [| |[|k|j|id c]]; try done. by destruct (Hk id c). Qed.

Lemma running_slave_iter x d sl :
  (∀ id c, x ≠ Entry (T_foreign id c)) →
  looping sl = true →
  running (slave_iter x d sl) = if decide (x = StopIteration) then 0%nat else 1%nat.
Proof.
  intros Hk Hl. unfold running. rewrite looping_slave_iter, Hl by done.
  by destruct (decide _).
Qed.

Lemma running_le (l : list slave) : (sum_list_with running l ≤ length l)%nat.
Proof.
  etrans; [apply (sum_list_with_bound _ 1%nat)|lia].
  intros sl. unfold running. by destruct (looping sl); lia.
Qed.

Lemma slave_iter_log reply d sl :
  ∃ new, logbook (slave_iter reply d sl) = logbook sl ++ new ∧ log_ok new.
Proof.
  destruct reply as [| |[|k|j|id c]]; simpl; try destruct (formats c); simpl;
    try (exists []; rewrite app_nil_r; split; [done|constructor]).
  - eexists. split; [done|]. apply Forall_singleton. left. by eexists.
  - eexists. split; [done|]. apply Forall_singleton. right. by eexists _, _.
Qed.

Lemma alive_lookup s w :
  alive s w = true ↔ ∃ sl, slaves s !! w = Some sl ∧ looping sl = true.
Proof.
  unfold alive. destruct (slaves s !! w) as [sl|]; [|by split; [|intros (?&?&?)]].
  split; [eauto|]. by intros (? & [= <-] & ?).
Qed.

Lemma enabled_alive s w :
  enabled s w = true →
  nproc (coord s) ≠ 0%nat ∧ ∃ sl, slaves s !! w = Some sl ∧ looping sl = true.
Proof.
  unfold enabled, loop_guard. intros [Hg Ha]%andb_true_iff.
  apply negb_true_iff, bool_decide_eq_false in Hg. split; [done|].
  by apply alive_lookup.
Qed.

(** ** The master's side, without any assumption on the state *)

Lemma refill_cases m :
  (∃ x q, msg_list m = x :: q ∧ refill m = m)
  ∨ (msg_list m = [] ∧ msg_deps m = 0
     ∧ refill m = set_nproc (nproc m - 1) (append StopIteration m))
  ∨ (msg_list m = [] ∧ msg_deps m ≠ 0 ∧ refill m = append PyNone m).
Proof.
  unfold refill. destruct (msg_list m) as [|x q] eqn:E; simpl.
  - right. destruct (decide (msg_deps m = 0)); [left|right]; done.
  - left. by exists x, q.
Qed.

Lemma refill_frame m :
  in_progress (refill m) = in_progress m ∧ comm (refill m) = comm m.
Proof. unfold refill. by repeat destruct (decide _). Qed.

Lemma resolve_frame cfg finished m m1 :
  resolve cfg finished m = Ok m1 →
  in_progress m1 = in_progress m ∧ comm m1 = comm m ∧ nproc m1 = nproc m.
Proof.
  destruct finished as [| |[|k|j|id c]]; simpl; try by (intros [= <-]).
  destruct (negb (has_xyts cfg)); [done|].
  destruct (decide _); [done|]. destruct (_ && _); [done|].
  destruct (_ && _); [done|]. by intros [= <-].
Qed.

Lemma request_slaves cfg w d s s' :
  request cfg w d s = Ok s' →
  ∃ x, slaves s' = alter (slave_iter x d) w (slaves s).
Proof.
  unfold request. destruct (master_iter cfg w (coord s)) as [[x m']|]; [|done].
  simpl. intros [= <-]. by exists x.
Qed.

Lemma times_sent_snoc y w' m m' w x :
  comm m' = comm m ++ [EvSend w x] →
  times_sent y w' m'
  = (times_sent y w' m + if decide (EvSend w x = EvSend w' y) then 1 else 0)%nat.
Proof.
  unfold times_sent. intros ->. rewrite filter_app, length_app. f_equal.
  rewrite filter_cons, filter_nil. by destruct (decide _).
Qed.

Lemma replies_snoc m m' w x :
  comm m' = comm m ++ [EvSend w x] → replies m' = replies m ++ [x].
Proof. unfold replies. intros ->. by rewrite omap_app. Qed.

Lemma round_robin_fair cfg : fair cfg (round_robin (nproc0 cfg)).
Proof.
  intros w t Hw. exists (t * nproc0 cfg + w)%nat. split; [nia|].
  unfold round_robin. simpl.
  rewrite Nat.add_comm, Nat.Div0.mod_add. by apply Nat.mod_small.
Qed.

(** ** A run under a fixed configuration *)

Section run.
Context (cfg : config).

(** *** The entries queued by dependency tracking *)

Lemma shards_length n : length (shards n) = n.
Proof. unfold shards. by rewrite length_fmap, length_seq. Qed.

Lemma shards_job_ok : Forall (job_ok cfg) (shards (nproc0 cfg)).
Proof.
  unfold shards. apply Forall_fmap, Forall_forall. intros i Hi.
  apply elem_of_seq in Hi. simpl. lia.
Qed.

Lemma shards_gens n : gens (shards n) = n.
Proof.
  unfold gens. rewrite (sum_list_with_const _ 1%nat).
  - rewrite shards_length. lia.
  - unfold shards. apply Forall_fmap, Forall_forall. done.
Qed.

Lemma shards_queued n :
  sum_list_with (queued cfg) (shards n) = (n * (2 + 2 * frames_sr cfg))%nat.
Proof.
  rewrite (sum_list_with_const _ (2 + 2 * frames_sr cfg)%nat).
  - by rewrite shards_length.
  - unfold shards. apply Forall_fmap, Forall_forall. done.
Qed.

Lemma ready_frames_length k n :
  (length (ready_frames cfg k n) ≤ frames_sr cfg)%nat.
Proof.
  unfold ready_frames. etrans; [apply length_filter|]. by rewrite length_seq.
Qed.

Lemma dyn_frames_job_ok l : Forall (job_ok cfg) (dyn_frame cfg <$> l).
Proof. apply Forall_fmap, Forall_forall. done. Qed.

Lemma dyn_frames_queued l :
  sum_list_with (queued cfg) (dyn_frame cfg <$> l) = (length l * 2)%nat.
Proof.
  rewrite (sum_list_with_const _ 2%nat); [by rewrite length_fmap|].
  apply Forall_fmap, Forall_forall. done.
Qed.

Lemma job_ok_not_sentinel x : job_ok cfg x → sentinel x = false.
Proof. by destruct x. Qed.

Lemma job_ok_sentinel l :
  Forall (job_ok cfg) l → Forall (λ x, sentinel x = false) l.
Proof.
  intros Hl. eapply Forall_impl; [done|]. intros x. apply job_ok_not_sentinel.
Qed.

(** *** Consequences of the invariant *)

Lemma inv_nproc_le s : inv cfg s → (nproc (coord s) ≤ nproc0 cfg)%nat.
Proof.
  intros H. rewrite (inv_nproc _ _ H), <- (inv_slaves_len _ _ H). apply running_le.
Qed.

Lemma inv_generators_full s :
  inv cfg s →
  (0 < gens (msg_list (coord s)) + gens (in_progress (coord s)))%nat →
  nproc (coord s) = nproc0 cfg.
Proof.
  intros H Hg. pose proof (inv_nproc_le _ H).
  destruct (decide (nproc (coord s) < nproc0 cfg)%nat) as [Hlt|]; [|lia].
  destruct (inv_drain _ _ H Hlt) as [_ Hz]. rewrite (inv_deps _ _ H) in Hz. lia.
Qed.

Lemma inv_generator_slot s w finished :
  inv cfg s → in_progress (coord s) !! w = Some finished →
  generator finished = true →
  has_xyts cfg = true ∧ animate cfg = true ∧ nproc (coord s) = nproc0 cfg.
Proof.
  intros H Hw Hg. pose proof (gens_lookup_le _ _ _ Hw) as Hle.
  rewrite gens_single, Hg in Hle.
  assert (0 < gens (msg_list (coord s)) + gens (in_progress (coord s)))%nat by lia.
  destruct (inv_gen_cfg _ _ H) as [??]; [done|].
  split_and!; [done..|]. by apply inv_generators_full.
Qed.

Lemma inv_slot s w sl :
  inv cfg s → slaves s !! w = Some sl → looping sl = true →
  ∃ finished, in_progress (coord s) !! w = Some finished
              ∧ finished ≠ StopIteration ∧ slot_ok cfg finished.
Proof.
  intros H Hsl Hl.
  destruct (lookup_lt_is_Some_2 (in_progress (coord s)) w) as [x Hx].
  { rewrite (inv_slots_len _ _ H), <- (inv_slaves_len _ _ H).
    by eapply lookup_lt_Some. }
  exists x. split_and!; [done| |].
  - intros ->. apply (inv_stopped _ _ H _ _ Hsl) in Hx. congruence.
  - by eapply (Forall_lookup_1 _ _ _ _ (inv_slots _ _ H)).
Qed.

Lemma alive_lt s w : inv cfg s → alive s w = true → (w < nproc0 cfg)%nat.
Proof.
  intros H (sl & Hsl & _)%alive_lookup. rewrite <- (inv_slaves_len _ _ H).
  by eapply lookup_lt_Some.
Qed.

Lemma alive_enabled s w : inv cfg s → alive s w = true → enabled s w = true.
Proof.
  intros H Ha. unfold enabled. rewrite Ha, andb_true_r.
  apply alive_lookup in Ha as (sl & Hsl & Hl).
  unfold loop_guard. apply negb_true_iff, bool_decide_eq_false.
  rewrite (inv_nproc _ _ H).
  pose proof (sum_list_with_lookup_le running _ _ _ Hsl) as Hle.
  unfold running at 1 in Hle. rewrite Hl in Hle. lia.
Qed.

Lemma halted_none_alive s w :
  inv cfg s → nproc (coord s) = 0%nat → alive s w = false.
Proof.
  intros H Hz. destruct (alive s w) eqn:Ha; [|done].
  pose proof (alive_enabled _ _ H Ha) as Hen.
  by destruct (enabled_alive _ _ Hen).
Qed.

Lemma stops_once s w :
  inv cfg s → (w < nproc0 cfg)%nat →
  times_sent StopIteration w (coord s) = (if alive s w then 0 else 1)%nat.
Proof.
  intros H Hw. destruct (lookup_lt_is_Some_2 (slaves s) w) as [sl Hsl].
  { by rewrite (inv_slaves_len _ _ H). }
  rewrite (inv_stops _ _ H _ _ Hsl). unfold alive, running. rewrite Hsl.
  by destruct (looping sl).
Qed.

Lemma no_xyts_no_deps s :
  inv cfg s → has_xyts cfg = false →
  msg_deps (coord s) = 0 ∧ gens (in_progress (coord s)) = 0%nat.
Proof.
  intros H Hx. pose proof (inv_deps _ _ H) as Hd.
  destruct (decide (0 < gens (msg_list (coord s)) + gens (in_progress (coord s)))%nat)
    as [Hpos|]; [|lia].
  destruct (inv_gen_cfg _ _ H Hpos). congruence.
Qed.

Lemma finish_spec s :
  inv cfg s → nproc (coord s) = 0%nat →
  finish s
  = Some (System (set_comm (comm (coord s)
                            ++ [EvGather (logbook <$> slaves s); EvDisconnect])
                           (coord s))
                 (slaves s)).
Proof.
  intros H Hz. unfold finish, loop_guard. rewrite Hz. simpl.
  assert (Forall (λ sl, running sl = 0%nat) (slaves s)) as Hall.
  { apply sum_list_with_zero. by rewrite <- (inv_nproc _ _ H). }
  replace (forallb gathers (slaves s)) with true; [done|].
  symmetry. apply forallb_forall. intros sl Hsl%list_elem_of_In.
  rewrite Forall_forall in Hall. specialize (Hall sl Hsl).
  pose proof (proj1 (Forall_forall _ _) (inv_raised _ _ H) sl Hsl) as Hr.
  unfold gathers. rewrite Hr. unfold running in Hall. by destruct (looping sl).
Qed.

(** *** One pass of the loop, taken apart *)

(** What dependency tracking does to a state that satisfies [inv]. *)
Lemma resolve_spec s w finished :
  inv cfg s → nproc (coord s) ≠ 0%nat →
  in_progress (coord s) !! w = Some finished → finished ≠ StopIteration →
  (t_frames cfg = 0
   ∧ resolve cfg finished (coord s) = Raise ZeroDivisionError
   ∧ ∃ k, finished = Entry (T_load_xyts_ts k)
          ∧ ready_frames cfg k (nproc0 cfg) ≠ [])
  ∨ ∃ m1 new,
    resolve cfg finished (coord s) = Ok m1
    ∧ msg_list m1 = msg_list (coord s) ++ new
    ∧ Forall (job_ok cfg) new
    ∧ msg_deps m1 + Z.of_nat (gens [finished])
      = msg_deps (coord s) + Z.of_nat (gens new)
    ∧ (sum_list_with (queued cfg) new + (if sentinel finished then 0 else 1)
       ≤ flight cfg finished)%nat
    ∧ (generator finished = false → new = []).
Proof.
  intros H Hn Hw Hstop.
  pose proof (inv_generator_slot _ _ _ H Hw) as Hgen.
  destruct finished as [| |[|k|j|id c]]; [|done|..].
  - right. exists (coord s), []. rewrite app_nil_r.
    by destruct (coord s); split_and!; simpl; try lia.
  - right. destruct Hgen as (_ & _ & Hfull); [done|].
    eexists _, (shards (nproc (coord s))). split; [reflexivity|]. simpl.
    rewrite Hfull. split_and!; try done.
    + apply shards_job_ok.
    + rewrite shards_gens. unfold gens. simpl. lia.
    + rewrite shards_queued. lia.
  - destruct Hgen as (Hx & Ha & Hfull); [done|].
    destruct (decide (ready_frames cfg k (nproc (coord s)) ≠ []
                      ∧ t_frames cfg = 0)) as [[Hne Ht]|Hok].
    { left. split; [done|]. split; [|exists k; by rewrite <- Hfull].
      simpl. rewrite Hx, Ha. simpl. destruct (decide _); [done|].
      rewrite bool_decide_eq_false_2 by done.
      by rewrite bool_decide_eq_true_2 by done. }
    right.
    exists (set_msg_deps (msg_deps (coord s) - 1)
              (set_msg_list
                 (msg_list (coord s)
                  ++ (dyn_frame cfg <$> ready_frames cfg k (nproc (coord s))))
                 (coord s))),
      (dyn_frame cfg <$> ready_frames cfg k (nproc (coord s))).
    split.
    { simpl. rewrite Hx, Ha. simpl. destruct (decide _); [done|].
      replace (negb (bool_decide (ready_frames cfg k (nproc (coord s)) = []))
               && bool_decide (t_frames cfg = 0)) with false.
      { by rewrite andb_false_r. }
      symmetry. apply andb_false_iff.
      destruct (decide (ready_frames cfg k (nproc (coord s)) = [])) as [E|E].
      - left. by rewrite bool_decide_eq_true_2.
      - right. apply bool_decide_eq_false_2. tauto. }
    simpl. split_and!; try done.
    + apply dyn_frames_job_ok.
    + rewrite gens_fmap_zero by done. unfold gens. simpl. lia.
    + rewrite dyn_frames_queued.
      pose proof (ready_frames_length k (nproc (coord s))). lia.
  - right. exists (coord s), []. rewrite app_nil_r.
    by destruct (coord s); split_and!; simpl; try lia.
  - right. exists (coord s), []. rewrite app_nil_r.
    by destruct (coord s); split_and!; simpl; try lia.
Qed.

(** A whole pass from a state that satisfies [inv]: the one exception the
    master can raise is the division by [meta['t_frames']]; otherwise the
    next state is one of three. *)
Lemma pass_spec s w d :
  inv cfg s → enabled s w = true →
  (t_frames cfg = 0
   ∧ request cfg w d s = Raise ZeroDivisionError
   ∧ ∃ k, in_progress (coord s) !! w = Some (Entry (T_load_xyts_ts k))
          ∧ ready_frames cfg k (nproc0 cfg) ≠ [])
  ∨ ∃ finished sl m1 new x q n',
    in_progress (coord s) !! w = Some finished ∧ finished ≠ StopIteration
    ∧ slaves s !! w = Some sl ∧ looping sl = true
    ∧ resolve cfg finished (coord s) = Ok m1
    ∧ msg_list m1 = msg_list (coord s) ++ new
    ∧ Forall (job_ok cfg) new
    ∧ msg_deps m1 + Z.of_nat (gens [finished])
      = msg_deps (coord s) + Z.of_nat (gens new)
    ∧ (sum_list_with (queued cfg) new + (if sentinel finished then 0 else 1)
       ≤ flight cfg finished)%nat
    ∧ (generator finished = false → new = [])
    ∧ ((msg_list m1 = x :: q ∧ n' = nproc (coord s))
       ∨ (msg_list m1 = [] ∧ msg_deps m1 = 0 ∧ x = StopIteration ∧ q = []
          ∧ n' = (nproc (coord s) - 1)%nat)
       ∨ (msg_list m1 = [] ∧ msg_deps m1 ≠ 0 ∧ x = PyNone ∧ q = []
          ∧ n' = nproc (coord s)))
    ∧ request cfg w d s
      = Ok (System (Master q (msg_deps m1) n' (<[w := x]> (in_progress (coord s)))
                           (comm (coord s) ++ [EvSend w x]))
                   (<[w := slave_iter x d sl]> (slaves s))).
Proof.
  intros H Hen. destruct (enabled_alive _ _ Hen) as (Hn & sl & Hsl & Hl).
  destruct (inv_slot _ _ _ H Hsl Hl) as (finished & Hw & Hstop & _).
  destruct (resolve_spec _ _ _ H Hn Hw Hstop)
    as [(Ht & Hres & k & -> & Hne)
       |(m1 & new & Hres & Hml & Hnew & Hdeps & Hwt & Hnogen)].
  { left. split; [done|]. split; [|by exists k].
    unfold request, master_iter, serve. rewrite Hw. simpl in Hres |- *.
    by rewrite Hres. }
  right.
  destruct (resolve_frame _ _ _ _ Hres) as (Hip & Hcm & Hnp).
  assert (∀ x q n',
    msg_list (refill m1) = x :: q → nproc (refill m1) = n' →
    request cfg w d s
    = Ok (System (Master q (msg_deps m1) n' (<[w := x]> (in_progress (coord s)))
                         (comm (coord s) ++ [EvSend w x]))
                 (<[w := slave_iter x d sl]> (slaves s)))) as Hreq.
  { intros x q n' E En. unfold request, master_iter, serve, next_job.
    rewrite Hw. simpl. rewrite Hres. simpl. rewrite E. simpl.
    rewrite (list_alter_lookup _ _ _ _ Hsl). do 2 f_equal.
    unfold track, send, set_in_progress, set_comm, set_msg_list. simpl.
    destruct (refill_frame m1) as [-> ->]. rewrite Hip, Hcm, En. f_equal.
    unfold refill. by repeat destruct (decide _). }
  destruct (refill_cases m1) as [(x & q & E & Er)|[(E & Hd & Er)|(E & Hd & Er)]].
  - exists finished, sl, m1, new, x, q, (nproc (coord s)).
    split_and!; auto. apply Hreq; rewrite Er; [done|by rewrite Hnp].
  - exists finished, sl, m1, new, StopIteration, [], (nproc (coord s) - 1)%nat.
    split_and!; auto 10.
    apply Hreq; rewrite Er; simpl; [by rewrite E|by rewrite Hnp].
  - exists finished, sl, m1, new, PyNone, [], (nproc (coord s)).
    split_and!; auto 10.
    apply Hreq; rewrite Er; simpl; [by rewrite E|by rewrite Hnp].
Qed.

(** Opening a pass in a proof. *)
Ltac open_pass H Hen Hreq :=
  match type of Hreq with
  | request _ ?w ?d ?s = Ok ?s' =>
      let Heq := fresh "Heq" in
      destruct (pass_spec s w d H Hen)
        as [(_ & Heq & _)
           |(finished & sl & m1 & new & x & q & n' & Hw & Hstop & Hsl & Hl & Hres
             & Hml & Hnew & Hdeps & Hwt & Hnogen & Hcase & Heq)];
      [by rewrite Heq in Hreq|];
      rewrite Heq in Hreq; injection Hreq as <-; clear Heq
  end.

(** Unless [meta['t_frames']] is 0 and there is an xyts file, requests from
    a state that satisfies [inv] never make the master raise. *)
Lemma request_ok s w d :
  t_frames cfg ≠ 0 ∨ has_xyts cfg = false →
  inv cfg s → enabled s w = true → ∃ s', request cfg w d s = Ok s'.
Proof.
  intros Hdiv H Hen.
  destruct (pass_spec s w d H Hen)
    as [(Ht & _ & k & Hw & _)|(?&?&?&?&?&?&?&?&?&?&?&?&?&?&?&?&?&?& ->)];
    [|eauto].
  destruct (inv_generator_slot _ _ _ H Hw) as (Hx & _); [done|].
  destruct Hdiv; congruence.
Qed.

Lemma request_comm s w d s' :
  inv cfg s → enabled s w = true → request cfg w d s = Ok s' →
  ∃ x m1 q,
    tracked cfg s w m1
    ∧ Forall (job_ok cfg) (msg_list m1)
    ∧ comm (coord s') = comm (coord s) ++ [EvSend w x]
    ∧ msg_list (refill m1) = x :: q
    ∧ msg_list (coord s') = q.
Proof.
  intros H Hen Hreq. open_pass H Hen Hreq.
  exists x, m1, q. split_and!; [by exists finished| |done| |done].
  - rewrite Hml. apply Forall_app. split; [apply (inv_queue _ _ H)|done].
  - unfold refill.
    destruct Hcase as [[E ->]|[(E & Hz & -> & -> & ->)|(E & Hz & -> & -> & ->)]];
      rewrite E; simpl; [done|..].
    + rewrite decide_True by done. simpl. by rewrite E.
    + rewrite decide_False by done. simpl. by rewrite E.
Qed.

(** *** The invariant holds throughout *)

Lemma inv_initial : inv cfg (initial cfg).
Proof.
  assert (Forall (job_ok cfg) (initial_msg_list cfg)) as Hq.
  { unfold initial_msg_list. destruct (animate cfg); [|by repeat constructor].
    rewrite !Forall_app. split_and!.
    - destruct (has_xyts cfg); by repeat constructor.
    - apply Forall_fmap, Forall_forall. done.
    - apply Forall_fmap, Forall_forall. done. }
  assert (gens (replicate (nproc0 cfg) PyNone) = 0%nat) as Hs.
  { apply gens_zero. by intros x ->%elem_of_replicate_inv. }
  assert (gens (initial_msg_list cfg)
          = if has_xyts cfg && animate cfg then 1%nat else 0%nat) as Hg.
  { unfold initial_msg_list. destruct (animate cfg); [|by rewrite andb_false_r].
    rewrite !gens_app, !gens_fmap_zero by done. by destruct (has_xyts cfg). }
  constructor; simpl.
  - by rewrite length_replicate.
  - by rewrite length_replicate.
  - done.
  - apply Forall_replicate. by left.
  - rewrite Hs, Hg. unfold initial_msg_deps. by destruct (has_xyts cfg && animate cfg).
  - rewrite Hs, Hg. destruct (has_xyts cfg), (animate cfg); simpl; by try lia.
  - rewrite sum_list_with_replicate. unfold running. simpl. lia.
  - lia.
  - intros w sl [-> _]%lookup_replicate. simpl. split; [done|].
    intros [? _]%lookup_replicate. done.
  - intros w sl [-> _]%lookup_replicate. done.
  - by apply Forall_replicate.
Qed.

Lemma inv_request s w d s' :
  inv cfg s → enabled s w = true → request cfg w d s = Ok s' → inv cfg s'.
Proof.
  intros H Hen Hreq. open_pass H Hen Hreq.
  destruct (enabled_alive _ _ Hen) as [Hn _].
  pose proof (gens_lookup_le _ _ _ Hw) as Hfle.
  pose proof (gens_insert _ _ _ x Hw) as Hins.
  pose proof (inv_deps _ _ H) as Hd.
  pose proof (inv_queue _ _ H) as Hq.
  pose proof (sum_list_with_insert running _ _ _ (slave_iter x d sl) Hsl) as Hrun.
  pose proof (inv_nproc _ _ H) as Hnproc.
  assert (running sl = 1%nat) as Hrsl by (unfold running; by rewrite Hl).
  assert (gens new ≠ 0%nat → gens [finished] = 1%nat) as Hnewgen.
  { intros Hne. rewrite gens_single.
    destruct (generator finished) eqn:Eg; [done|].
    rewrite (Hnogen eq_refl) in Hne. done. }
  assert (Forall (job_ok cfg) (msg_list m1)) as Hq1.
  { rewrite Hml. by apply Forall_app. }
  assert (gens (msg_list m1) = gens (msg_list (coord s)) + gens new)%nat as Hg1.
  { by rewrite Hml, gens_app. }
  assert (slot_ok cfg x ∧ Forall (job_ok cfg) q
          ∧ (gens (msg_list m1) = gens [x] + gens q)%nat
          ∧ (x = StopIteration →
             n' = (nproc (coord s) - 1)%nat ∧ q = [] ∧ msg_deps m1 = 0)
          ∧ (x ≠ StopIteration → n' = nproc (coord s))
          ∧ (msg_list m1 = [] → q = [] ∧ sentinel x = true)
          ∧ (x = PyNone → msg_deps m1 ≠ 0))
    as (Hx & Hq' & Hgq & Hxs & Hxn & Hempty & Hnone).
  { destruct Hcase as [[E ->]|[(E & Hz & -> & -> & ->)|(E & Hz & -> & -> & ->)]].
    - rewrite E in Hq1 |- *. apply Forall_cons in Hq1 as [Hjx Hjq].
      pose proof (job_ok_not_sentinel _ Hjx).
      split_and!; try done.
      + by right; right.
      + apply gens_cons.
      + by intros ->.
      + by intros ->.
    - rewrite E. split_and!; try done. by right; left.
    - rewrite E. split_and!; try done. by left. }
  clear Hcase.
  pose proof (slot_ok_known _ _ Hx) as Hk.
  pose proof (running_slave_iter x d sl Hk Hl) as Hrx.
  constructor; simpl.
  - by rewrite length_insert, (inv_slots_len _ _ H).
  - by rewrite length_insert, (inv_slaves_len _ _ H).
  - done.
  - apply Forall_insert; [apply (inv_slots _ _ H)|done].
  - lia.
  - intros Hpos. apply (inv_gen_cfg _ _ H).
    destruct (decide (gens new = 0%nat)); [lia|]. specialize (Hnewgen ltac:(done)). lia.
  - destruct (decide (x = StopIteration)) as [Ex|Ex].
    + destruct (Hxs Ex) as (-> & _). lia.
    + rewrite (Hxn Ex). lia.
  - intros Hlt. destruct (decide (x = StopIteration)) as [Ex|Ex].
    + by destruct (Hxs Ex) as (_ & -> & ->).
    + rewrite (Hxn Ex) in Hlt. destruct (inv_drain _ _ H Hlt) as [Hnil Hz].
      assert (gens new = 0%nat) as Hgn.
      { destruct (decide (gens new = 0%nat)); [done|].
        specialize (Hnewgen ltac:(done)). lia. }
      assert (new = []) as ->.
      { apply Hnogen. destruct (generator finished) eqn:Eg; [|done].
        rewrite gens_single, Eg in Hfle. lia. }
      rewrite Hnil in Hml. simpl in Hml. destruct (Hempty Hml) as [-> Hsx].
      split; [done|]. destruct x as [| |t]; [|done..].
      exfalso. apply Hnone; [done|]. lia.
  - intros w' sl'. destruct (decide (w = w')) as [<-|Hne].
    + rewrite list_lookup_insert_eq by (by eapply lookup_lt_Some).
      rewrite list_lookup_insert_eq by (by eapply lookup_lt_Some).
      intros [= <-]. rewrite looping_slave_iter, Hl by done.
      destruct (decide (x = StopIteration)) as [->|]; split; congruence.
    + rewrite !list_lookup_insert_ne by done. apply (inv_stopped _ _ H).
  - intros w' sl'.
    rewrite (times_sent_snoc _ _ (coord s) _ w x) by done.
    destruct (decide (w = w')) as [<-|Hne].
    + rewrite list_lookup_insert_eq by (by eapply lookup_lt_Some).
      intros [= <-]. rewrite (inv_stops _ _ H _ _ Hsl), Hrsl, Hrx.
      destruct (decide (x = StopIteration)) as [->|Ex].
      * by rewrite decide_True.
      * rewrite decide_False by congruence. done.
    + rewrite list_lookup_insert_ne by done. intros Hsl'.
      rewrite (inv_stops _ _ H _ _ Hsl'). rewrite decide_False by congruence. lia.
  - apply Forall_insert; [apply (inv_raised _ _ H)|].
    rewrite raised_slave_iter by done.
    by apply (proj1 (Forall_lookup _ _) (inv_raised _ _ H) w sl).
Qed.

Lemma reachable_inv s : reachable cfg s → inv cfg s.
Proof.
  induction 1 as [|s w d s' _ IH Hen Hreq]; [apply inv_initial|].
  by eapply inv_request.
Qed.

Lemma reachable_logs s :
  reachable cfg s → Forall (λ sl, log_ok (logbook sl)) (slaves s).
Proof.
  induction 1 as [|s w d s' _ IH _ Hreq].
  - simpl. apply Forall_replicate. constructor.
  - destruct (request_slaves _ _ _ _ _ Hreq) as [x ->].
    apply Forall_alter; [done|]. intros sl _ Hsl.
    destruct (slave_iter_log x d sl) as (new & -> & Hnew). by apply Forall_app.
Qed.

Lemma reachable_dests s w x :
  reachable cfg s → EvSend w x ∈ comm (coord s) → (w < nproc0 cfg)%nat.
Proof.
  induction 1 as [|s w' d s' Hr IH Hen Hreq]; simpl; [by intros ?%elem_of_nil|].
  pose proof (reachable_inv _ Hr) as H.
  destruct (request_comm _ _ _ _ H Hen Hreq) as (y & _ & _ & _ & _ & -> & _).
  rewrite elem_of_app, list_elem_of_singleton. intros [?|[= -> ->]]; [by apply IH|].
  apply (alive_lt _ _ H). unfold enabled in Hen.
  by apply andb_true_iff in Hen as [_ ?].
Qed.

(** Without an xyts file the replies follow the queue built before the
    loop, and the stops come last. *)
Lemma reachable_fifo s :
  has_xyts cfg = false → reachable cfg s →
  replies (coord s) ++ msg_list (coord s)
    ++ replicate (nproc (coord s)) StopIteration
  = initial_msg_list cfg ++ replicate (nproc0 cfg) StopIteration.
Proof.
  intros Hx. induction 1 as [|s w d s' Hr IH Hen Hreq]; [done|].
  pose proof (reachable_inv _ Hr) as H.
  destruct (no_xyts_no_deps _ H Hx) as [Hz Hg].
  open_pass H Hen Hreq.
  pose proof (gens_lookup_le _ _ _ Hw) as Hle.
  assert (new = []) as ->.
  { apply Hnogen. destruct (generator finished) eqn:Eg; [|done].
    rewrite gens_single, Eg in Hle. lia. }
  rewrite app_nil_r in Hml. change (gens []) with 0%nat in Hdeps.
  rewrite (replies_snoc (coord s) _ w x) by done. simpl.
  rewrite <- IH, <- app_assoc. f_equal.
  destruct Hcase as [[E ->]|[(E & _ & -> & -> & ->)|(E & Hd & _)]].
  - by rewrite <- Hml, E.
  - rewrite <- Hml, E. simpl. destruct (enabled_alive _ _ Hen) as [Hn _].
    destruct (nproc (coord s)); [done|]. simpl. by rewrite Nat.sub_0_r.
  - lia.
Qed.

(** *** The state right after dependency tracking *)

Lemma tracked_spec s w m1 :
  inv cfg s → enabled s w = true → tracked cfg s w m1 →
  ∃ finished new,
    in_progress (coord s) !! w = Some finished ∧ finished ≠ StopIteration
    ∧ msg_list m1 = msg_list (coord s) ++ new
    ∧ Forall (job_ok cfg) new
    ∧ msg_deps m1 + Z.of_nat (gens [finished])
      = msg_deps (coord s) + Z.of_nat (gens new)
    ∧ nproc m1 = nproc (coord s)
    ∧ (gens [finished] ≤ gens (in_progress (coord s)))%nat.
Proof.
  intros H Hen (finished & Hw & Hres).
  destruct (enabled_alive _ _ Hen) as (Hn & sl & Hsl & Hl).
  destruct (inv_slot _ _ _ H Hsl Hl) as (f' & Hw' & Hstop & _).
  rewrite Hw in Hw'. injection Hw' as <-.
  destruct (resolve_spec _ _ _ H Hn Hw Hstop)
    as [(_ & Hres' & _)|(m1' & new & Hres' & Hml & Hnew & Hdeps & _)];
    [by rewrite Hres in Hres'|].
  rewrite Hres in Hres'. injection Hres' as <-.
  destruct (resolve_frame _ _ _ _ Hres) as (_ & _ & Hnp).
  exists finished, new. split_and!; try done. by eapply gens_lookup_le.
Qed.

Lemma tracked_deps s w m1 :
  inv cfg s → enabled s w = true → tracked cfg s w m1 →
  ∃ finished,
    in_progress (coord s) !! w = Some finished
    ∧ msg_deps m1 + Z.of_nat (gens [finished])
      = Z.of_nat (gens (msg_list m1) + gens (in_progress (coord s)))
    ∧ (gens [finished] ≤ gens (in_progress (coord s)))%nat.
Proof.
  intros H Hen Htr.
  destruct (tracked_spec _ _ _ H Hen Htr)
    as (finished & new & Hw & _ & Hml & _ & Hdeps & _ & Hle).
  exists finished. split_and!; try done.
  rewrite Hml, gens_app. pose proof (inv_deps _ _ H). lia.
Qed.

(** *** Progress *)

(** A pass either lowers the potential or is an idle wait that leaves the
    master's bookkeeping as it was. *)
Lemma request_potential s w d s' :
  inv cfg s → enabled s w = true → request cfg w d s = Ok s' →
  (potential cfg (coord s') < potential cfg (coord s))%nat
  ∨ (¬ progressive s w
     ∧ msg_list (coord s') = msg_list (coord s)
     ∧ msg_deps (coord s') = msg_deps (coord s)
     ∧ nproc (coord s') = nproc (coord s)
     ∧ in_progress (coord s') = in_progress (coord s)
     ∧ ∀ p, alive s' p = alive s p).
Proof.
  intros H Hen Hreq. open_pass H Hen Hreq.
  destruct (enabled_alive _ _ Hen) as [Hn _].
  pose proof (sum_list_with_insert (flight cfg) _ _ _ x Hw) as Hins.
  assert (sum_list_with (queued cfg) (msg_list m1)
          = sum_list_with (queued cfg) (msg_list (coord s))
            + sum_list_with (queued cfg) new)%nat as Hq1.
  { by rewrite Hml, sum_list_with_app. }
  unfold potential. simpl.
  destruct Hcase as [[E ->]|[(E & Hz & -> & -> & ->)|(E & Hz & -> & -> & ->)]].
  - left. rewrite E in Hq1.
    change (sum_list_with (queued cfg) (x :: q))
      with (S (flight cfg x) + sum_list_with (queued cfg) q)%nat in Hq1.
    destruct (sentinel finished); lia.
  - left. rewrite E in Hq1. simpl in *. destruct (sentinel finished); lia.
  - rewrite E in Hq1. simpl in *.
    destruct finished as [| |t]; [|done|left; simpl in *; lia].
    right. simpl in Hres. injection Hres as <-.
    split_and!; try done.
    + intros (_ & [?|[?|(t & Ht)]]); [done|done|congruence].
    + by apply list_insert_id.
    + intros p. unfold alive. simpl. destruct (decide (w = p)) as [<-|Hne].
      * rewrite list_lookup_insert_eq by (by eapply lookup_lt_Some).
        rewrite Hsl. simpl. by rewrite ?looping_slave_iter.
      * by rewrite list_lookup_insert_ne.
Qed.

Lemma progressive_potential s p d s' :
  inv cfg s → progressive s p → request cfg p d s = Ok s' →
  (potential cfg (coord s') < potential cfg (coord s))%nat.
Proof.
  intros H Hp Hreq. pose proof (alive_enabled _ _ H (proj1 Hp)) as Hen.
  destruct (request_potential _ _ _ _ H Hen Hreq) as [?|[? _]]; done.
Qed.

(** While the loop runs, some slave's request moves the run forward. *)
Lemma progressive_exists s :
  inv cfg s → nproc (coord s) ≠ 0%nat → ∃ p, progressive s p.
Proof.
  intros H Hn.
  destruct (decide (msg_list (coord s) ≠ [] ∨ msg_deps (coord s) = 0)) as [Hq|Hq].
  - destruct (sum_list_with_pos running (slaves s)) as (i & sl & Hi & Hr).
    { rewrite <- (inv_nproc _ _ H). lia. }
    exists i. split; [|tauto]. apply alive_lookup. exists sl. split; [done|].
    unfold running in Hr. destruct (looping sl); [done|lia].
  - assert (msg_list (coord s) = [] ∧ msg_deps (coord s) ≠ 0) as [Hnil Hd].
    { destruct (msg_list (coord s)); [|exfalso; apply Hq; by left].
      split; [done|]. tauto. }
    destruct (sum_list_with_pos (λ x, if generator x then 1%nat else 0%nat)
                (in_progress (coord s))) as (i & x & Hi & Hx).
    { pose proof (inv_deps _ _ H) as Hdeps. rewrite Hnil in Hdeps.
      change (gens []) with 0%nat in Hdeps. unfold gens in Hdeps. lia. }
    destruct (lookup_lt_is_Some_2 (slaves s) i) as [sl Hsl].
    { rewrite (inv_slaves_len _ _ H), <- (inv_slots_len _ _ H).
      by eapply lookup_lt_Some. }
    exists i. split.
    + apply alive_lookup. exists sl. split; [done|].
      destruct (looping sl) eqn:El; [done|].
      apply (inv_stopped _ _ H _ _ Hsl) in El. rewrite Hi in El.
      injection El as ->. simpl in Hx. lia.
    + right; right. destruct x as [| |t]; simpl in Hx; [lia..|]. by exists t.
Qed.

(** *** Schedules *)

Section schedule.
Context (sched : nat → nat * duration).

Lemma exec_reachable n : reachable cfg (exec cfg sched n).
Proof.
  unfold exec. induction n as [|n IH]; simpl; [constructor|].
  destruct (run cfg sched n).2; [done|].
  unfold tick. destruct (enabled _ _) eqn:Hen; [|done].
  destruct (request _ _ _ _) as [s'|e] eqn:Hreq; [|done].
  by eapply reach_request.
Qed.

Lemma exec_inv n : inv cfg (exec cfg sched n).
Proof. apply reachable_inv, exec_reachable. Qed.

Lemma exec_halted n j :
  nproc (coord (exec cfg sched n)) = 0%nat →
  exec cfg sched (n + j) = exec cfg sched n.
Proof.
  intros Hz. induction j as [|j IH]; [by rewrite Nat.add_0_r|].
  rewrite Nat.add_succ_r. unfold exec in *. simpl.
  destruct (run cfg sched (n + j)).2; [done|].
  unfold tick, enabled, loop_guard. by rewrite IH, Hz.
Qed.

(** The master does not raise under a schedule, unless [meta['t_frames']]
    is 0 and there is an xyts file. *)
Lemma run_ok n :
  t_frames cfg ≠ 0 ∨ has_xyts cfg = false → (run cfg sched n).2 = None.
Proof.
  intros Hdiv. induction n as [|n IH]; [done|]. simpl. rewrite IH.
  unfold tick. destruct (enabled _ _) eqn:Hen; [|done].
  destruct (request_ok _ _ (sched n).2 Hdiv (exec_inv n) Hen) as [s' Hreq].
  unfold exec in Hreq. by rewrite Hreq.
Qed.

(** One slot of such a schedule. *)
Lemma exec_S n :
  t_frames cfg ≠ 0 ∨ has_xyts cfg = false →
  (enabled (exec cfg sched n) (sched n).1 = false
   ∧ exec cfg sched (S n) = exec cfg sched n)
  ∨ (enabled (exec cfg sched n) (sched n).1 = true
     ∧ request cfg (sched n).1 (sched n).2 (exec cfg sched n)
       = Ok (exec cfg sched (S n))).
Proof.
  intros Hdiv. unfold exec. simpl. rewrite (run_ok n Hdiv).
  unfold tick. destruct (enabled _ _) eqn:Hen; [|by left]. right.
  destruct (request_ok _ _ (sched n).2 Hdiv (exec_inv n) Hen) as [s' Hreq].
  unfold exec in Hreq. by rewrite Hreq.
Qed.

(** What one slot of the schedule does. *)
Lemma exec_succ p n :
  t_frames cfg ≠ 0 ∨ has_xyts cfg = false →
  progressive (exec cfg sched n) p →
  exec cfg sched (S n) = exec cfg sched n
  ∨ (potential cfg (coord (exec cfg sched (S n)))
     < potential cfg (coord (exec cfg sched n)))%nat
  ∨ (potential cfg (coord (exec cfg sched (S n)))
     = potential cfg (coord (exec cfg sched n))
     ∧ progressive (exec cfg sched (S n)) p).
Proof.
  intros Hdiv Hp. pose proof (exec_inv n) as H.
  destruct (exec_S n Hdiv) as [[_ ?]|[Hen Hreq]]; [by left|].
  destruct (request_potential _ _ _ _ H Hen Hreq)
    as [Hlt|(_ & Hml & Hd & Hnp & Hip & Hal)]; [by right; left|].
  right; right. split.
  - unfold potential. by rewrite Hml, Hnp, Hip.
  - destruct Hp as [Ha Hp]. split; [by rewrite Hal|]. by rewrite Hml, Hd, Hip.
Qed.

(** Waiting for the turn of a progressive slave: the potential drops no
    later than at that turn. *)
Lemma exec_drop p j : ∀ n,
  t_frames cfg ≠ 0 ∨ has_xyts cfg = false →
  (sched (n + j)%nat).1 = p →
  progressive (exec cfg sched n) p →
  ∃ n', (n < n')%nat
        ∧ (potential cfg (coord (exec cfg sched n'))
           < potential cfg (coord (exec cfg sched n)))%nat.
Proof.
  induction j as [|j IH]; intros n Hdiv Hturn Hp.
  - rewrite Nat.add_0_r in Hturn. exists (S n). split; [lia|].
    pose proof (exec_inv n) as H.
    pose proof (alive_enabled _ _ H (proj1 Hp)) as Hen.
    destruct (exec_S n Hdiv) as [[Hen' _]|[_ Hreq]]; [congruence|].
    rewrite Hturn in Hreq. by eapply progressive_potential.
  - destruct (exec_succ p n Hdiv Hp) as [Heq|[Hlt|[Heq Hp']]].
    + destruct (IH (S n)) as (n' & Hn' & Hlt); [done| |by rewrite Heq|].
      { by rewrite Nat.add_succ_comm. }
      exists n'. split; [lia|]. by rewrite Heq in Hlt.
    + exists (S n). split; [lia|done].
    + destruct (IH (S n)) as (n' & Hn' & Hlt);
        [done|by rewrite Nat.add_succ_comm|done|].
      exists n'. split; [lia|]. by rewrite <- Heq.
Qed.

(** Under a fair schedule the loop ends. *)
Lemma exec_terminates :
  t_frames cfg ≠ 0 ∨ has_xyts cfg = false →
  fair cfg sched → ∃ n, nproc (coord (exec cfg sched n)) = 0%nat.
Proof.
  intros Hdiv Hfair.
  cut (∀ k n, potential cfg (coord (exec cfg sched n)) = k →
              ∃ n', nproc (coord (exec cfg sched n')) = 0%nat).
  { intros Hk. by apply (Hk (potential cfg (coord (exec cfg sched 0))) 0%nat). }
  intros k. induction k as [k IH] using lt_wf_ind. intros n Hk.
  destruct (decide (nproc (coord (exec cfg sched n)) = 0%nat)) as [|Hn];
    [by exists n|].
  pose proof (exec_inv n) as H.
  destruct (progressive_exists _ H Hn) as [p Hp].
  destruct (Hfair p n) as (t' & Hle & Hturn).
  { by apply (alive_lt _ _ H), Hp. }
  destruct (exec_drop p (t' - n) n) as (n' & _ & Hlt); [done| |done|].
  { by replace (n + (t' - n))%nat with t' by lia. }
  apply (IH (potential cfg (coord (exec cfg sched n')))) with n'; [lia|done].
Qed.
End schedule.
End run.

(** * Properties of the scheduler *)

(** C1: when the queue is empty after dependency tracking, the master appends
    a wait entry ([None]) if [msg_deps] is greater than zero and otherwise
    exactly one [StopIteration], decrementing [nproc]; the loop ends exactly
    when [nproc] is zero, and the master then gathers one report per slave
    and disconnects after that. *)
Theorem C1_empty_queue_and_loop_end cfg s :
  reachable cfg s →
  (∀ w m1, enabled s w = true → tracked cfg s w m1 → msg_list m1 = [] →
     (0 < msg_deps m1 →
        msg_list (refill m1) = [PyNone] ∧ nproc (refill m1) = nproc m1)
     ∧ (¬ 0 < msg_deps m1 →
        msg_list (refill m1) = [StopIteration]
        ∧ S (nproc (refill m1)) = nproc m1))
  ∧ (loop_guard (coord s) = false ↔ nproc (coord s) = 0%nat)
  ∧ (nproc (coord s) = 0%nat →
     ∃ s', finish s = Some s'
           ∧ comm (coord s')
             = comm (coord s) ++ [EvGather (logbook <$> slaves s); EvDisconnect]
           ∧ length (logbook <$> slaves s) = nproc0 cfg)
  ∧ (nproc (coord s) ≠ 0%nat → finish s = None).
Proof.
  intros Hr. pose proof (reachable_inv _ _ Hr) as H. split_and!.
  - intros w m1 Hen Htr Hnil.
    destruct (tracked_deps _ _ _ _ H Hen Htr) as (finished & _ & Hdeps & Hle).
    destruct (tracked_spec _ _ _ _ H Hen Htr) as (f' & new & _ & _ & _ & _ & _ & Hnp & _).
    destruct (enabled_alive _ _ Hen) as [Hn _].
    unfold refill. rewrite Hnil. simpl. split; intros Hd.
    + destruct (decide (msg_deps m1 = 0)); [lia|]. simpl. by rewrite Hnil.
    + destruct (decide (msg_deps m1 = 0)); [|lia]. simpl. rewrite Hnil. split; [done|lia].
  - unfold loop_guard. rewrite negb_false_iff, bool_decide_eq_true. done.
  - intros Hz. eexists. split; [by apply (finish_spec cfg)|]. simpl.
    split; [done|]. by rewrite length_fmap, (inv_slaves_len _ _ H).
  - intros Hn. unfold finish, loop_guard. by rewrite bool_decide_eq_false_2.
Qed.

Lemma C1_witness :
  let s := exec still_cfg (round_robin 1) 1 in
  (∀ w m1, enabled s w = true → tracked still_cfg s w m1 → msg_list m1 = [] →
     (0 < msg_deps m1 →
        msg_list (refill m1) = [PyNone] ∧ nproc (refill m1) = nproc m1)
     ∧ (¬ 0 < msg_deps m1 →
        msg_list (refill m1) = [StopIteration]
        ∧ S (nproc (refill m1)) = nproc m1))
  ∧ (loop_guard (coord s) = false ↔ nproc (coord s) = 0%nat)
  ∧ (nproc (coord s) = 0%nat →
     ∃ s', finish s = Some s'
           ∧ comm (coord s')
             = comm (coord s) ++ [EvGather (logbook <$> slaves s); EvDisconnect]
           ∧ length (logbook <$> slaves s) = nproc0 still_cfg)
  ∧ (nproc (coord s) ≠ 0%nat → finish s = None).
Proof.
  exact (C1_empty_queue_and_loop_end still_cfg _
           (exec_reachable still_cfg (round_robin 1) 1)).
Defined.

(** C2: with W slaves, when the master sees [load_xyts] finished it takes 1
    off [msg_deps], appends exactly W [load_xyts_ts] entries whose keys are
    start = 0, 1, ..., W-1 with stride W (so that no timeslice belongs to two
    of them), and adds W to [msg_deps]. *)
Theorem C2_load_xyts_fan_out cfg s w :
  reachable cfg s → enabled s w = true →
  in_progress (coord s) !! w = Some (Entry T_load_xyts) →
  ∃ m1,
    tracked cfg s w m1
    ∧ msg_list m1
      = msg_list (coord s)
        ++ ((λ i, Entry (T_load_xyts_ts (Shard i (nproc0 cfg))))
              <$> seq 0 (nproc0 cfg))
    ∧ length (msg_list m1) = (length (msg_list (coord s)) + nproc0 cfg)%nat
    ∧ msg_deps m1 = msg_deps (coord s) - 1 + Z.of_nat (nproc0 cfg)
    ∧ (∀ i j x, (i < nproc0 cfg)%nat → (j < nproc0 cfg)%nat →
         in_range i (nt cfg) (nproc0 cfg) x = true →
         in_range j (nt cfg) (nproc0 cfg) x = true → i = j).
Proof.
  intros Hr Hen Hw. pose proof (reachable_inv _ _ Hr) as H.
  destruct (enabled_alive _ _ Hen) as [Hn _].
  assert (nproc (coord s) = nproc0 cfg) as Hfull.
  { apply (inv_generators_full _ _ H).
    pose proof (gens_lookup_le _ _ _ Hw) as Hle. unfold gens in Hle at 1.
    simpl in Hle. lia. }
  eexists. split; [exists (Entry T_load_xyts); split; [done|reflexivity]|].
  simpl. rewrite Hfull. split_and!.
  - done.
  - rewrite length_app. f_equal. apply shards_length.
  - done.
  - intros i j x. apply in_range_disjoint.
Qed.

Lemma C2_witness :
  let s := exec movie_cfg (round_robin 2) 2 in
  ∃ m1,
    tracked movie_cfg s 0 m1
    ∧ msg_list m1
      = msg_list (coord s)
        ++ ((λ i, Entry (T_load_xyts_ts (Shard i (nproc0 movie_cfg))))
              <$> seq 0 (nproc0 movie_cfg))
    ∧ length (msg_list m1) = (length (msg_list (coord s)) + nproc0 movie_cfg)%nat
    ∧ msg_deps m1 = msg_deps (coord s) - 1 + Z.of_nat (nproc0 movie_cfg)
    ∧ (∀ i j x, (i < nproc0 movie_cfg)%nat → (j < nproc0 movie_cfg)%nat →
         in_range i (nt movie_cfg) (nproc0 movie_cfg) x = true →
         in_range j (nt movie_cfg) (nproc0 movie_cfg) x = true → i = j).
Proof.
  apply (C2_load_xyts_fan_out movie_cfg _ 0%nat
           (exec_reachable movie_cfg (round_robin 2) 2)); reflexivity.
Defined.



(** C4: [msg_deps] is never negative, neither between two passes of the loop
    nor where a pass reads or decrements it, and it is zero exactly when no
    generator job ([load_xyts], [load_xyts_ts]) is queued or in flight. *)
Theorem C4_msg_deps_counts_generators cfg s :
  reachable cfg s →
  0 ≤ msg_deps (coord s)
  ∧ (msg_deps (coord s) = 0 ↔
     (∀ x, x ∈ msg_list (coord s) → generator x = false)
     ∧ (∀ x, x ∈ in_progress (coord s) → generator x = false))
  ∧ (∀ w finished, enabled s w = true →
       in_progress (coord s) !! w = Some finished →
       generator finished = true → 1 ≤ msg_deps (coord s))
  ∧ (∀ w m1, enabled s w = true → tracked cfg s w m1 →
       0 ≤ msg_deps m1
       ∧ (msg_deps m1 = 0 ↔
          (∀ x, x ∈ msg_list m1 → generator x = false)
          ∧ (∀ w' x, w' ≠ w → in_progress (coord s) !! w' = Some x →
               generator x = false))).
Proof.
  intros Hr. pose proof (reachable_inv _ _ Hr) as H.
  pose proof (inv_deps _ _ H) as Hd. split_and!.
  - lia.
  - rewrite <- !gens_zero. lia.
  - intros w finished _ Hw Hg. pose proof (gens_lookup_le _ _ _ Hw) as Hle.
    unfold gens in Hle at 1. simpl in Hle. rewrite Hg in Hle. lia.
  - intros w m1 Hen Htr.
    destruct (tracked_deps _ _ _ _ H Hen Htr) as (finished & Hw & Hdeps & Hle).
    split; [lia|].
    pose proof (gens_insert _ _ _ PyNone Hw) as Hins.
    change (gens [PyNone]) with 0%nat in Hins.
    assert (gens (<[w:=PyNone]> (in_progress (coord s))) = 0%nat ↔
            ∀ w' x, w' ≠ w → in_progress (coord s) !! w' = Some x →
                    generator x = false) as Hothers.
    { rewrite gens_zero. split.
      - intros Hall w' x Hne Hx. apply Hall, list_elem_of_lookup. exists w'.
        by rewrite list_lookup_insert_ne.
      - intros Hall x [w' Hx]%list_elem_of_lookup.
        destruct (decide (w = w')) as [<-|Hne].
        + rewrite list_lookup_insert_eq in Hx by (by eapply lookup_lt_Some).
          by injection Hx as <-.
        + rewrite list_lookup_insert_ne in Hx by done. by eapply Hall. }
    rewrite <- Hothers, <- gens_zero. lia.
Qed.

Lemma C4_witness :
  let s := exec movie_cfg (round_robin 2) 7 in
  0 ≤ msg_deps (coord s)
  ∧ (msg_deps (coord s) = 0 ↔
     (∀ x, x ∈ msg_list (coord s) → generator x = false)
     ∧ (∀ x, x ∈ in_progress (coord s) → generator x = false))
  ∧ (∀ w finished, enabled s w = true →
       in_progress (coord s) !! w = Some finished →
       generator finished = true → 1 ≤ msg_deps (coord s))
  ∧ (∀ w m1, enabled s w = true → tracked movie_cfg s w m1 →
       0 ≤ msg_deps m1
       ∧ (msg_deps m1 = 0 ↔
          (∀ x, x ∈ msg_list m1 → generator x = false)
          ∧ (∀ w' x, w' ≠ w → in_progress (coord s) !! w' = Some x →
               generator x = false))).
Proof.
  exact (C4_msg_deps_counts_generators movie_cfg _
           (exec_reachable movie_cfg (round_robin 2) 7)).
Defined.



(** C6 as stated fails: the slot of the slave that is sent [StopIteration]
    holds [StopIteration] after the pass, and at the moment a job is sent the
    slot still holds what it held before. *)
Lemma C6_counterexample :
  serve still_cfg 0 (master_init still_cfg)
  = Ok (Entry (T_timeslice (Frame None None)),
        Master [] 0 1 [PyNone] [EvSend 0 (Entry (T_timeslice (Frame None None)))])
  ∧ (∃ m', master_iter still_cfg 0
             (coord (exec still_cfg (round_robin 1) 1))
           = Ok (StopIteration, m')
           ∧ in_progress m' !! 0%nat = Some StopIteration).
Proof. split; [reflexivity|]. eexists. split; reflexivity. Qed.

(** C6, amended: in every pass the head of the queue is taken off, sent to
    the requesting slave while its slot still holds the previous entry, and
    then stored in that slot, whatever it is: [StopIteration] and [None] are
    stored like a job. *)
Theorem C6_send_then_track cfg w m x m' :
  master_iter cfg w m = Ok (x, m') →
  ∃ finished mr m1,
    in_progress m !! w = Some finished
    ∧ resolve cfg finished m = Ok mr
    ∧ msg_list (refill mr) = x :: msg_list m'
    ∧ serve cfg w m = Ok (x, m1)
    ∧ comm m1 = comm m ++ [EvSend w x]
    ∧ in_progress m1 = in_progress m
    ∧ m' = track w x m1
    ∧ comm m' = comm m1
    ∧ in_progress m' = <[w := x]> (in_progress m)
    ∧ in_progress m' !! w = Some x.
Proof.
  unfold master_iter, serve. intros Hit.
  destruct (in_progress m !! w) as [finished|] eqn:Hw; [|done]. simpl in Hit |- *.
  destruct (resolve cfg finished m) as [mr|] eqn:Hres; [|done]. simpl in Hit |- *.
  destruct (resolve_frame _ _ _ _ Hres) as (Hip & Hcm & _).
  destruct (refill_frame mr) as [Hip' Hcm'].
  unfold next_job in *.
  destruct (msg_list (refill mr)) as [|y q] eqn:E; [done|]. simpl in Hit |- *.
  injection Hit as <- <-.
  exists finished, mr, (send w y (set_msg_list q (refill mr))). simpl.
  rewrite Hip', Hcm', Hip, Hcm. split_and!; try done.
  apply list_lookup_insert_eq. by eapply lookup_lt_Some.
Qed.

Lemma C6_witness :
  ∃ finished mr m1,
    in_progress (coord (exec still_cfg (round_robin 1) 1)) !! 0%nat = Some finished
    ∧ resolve still_cfg finished (coord (exec still_cfg (round_robin 1) 1)) = Ok mr
    ∧ msg_list (refill mr) = StopIteration :: msg_list (Master [] 0 0 [StopIteration]
        [EvSend 0 (Entry (T_timeslice (Frame None None))); EvSend 0 StopIteration])
    ∧ serve still_cfg 0 (coord (exec still_cfg (round_robin 1) 1))
      = Ok (StopIteration, m1)
    ∧ comm m1 = comm (coord (exec still_cfg (round_robin 1) 1))
                ++ [EvSend 0 StopIteration]
    ∧ in_progress m1 = in_progress (coord (exec still_cfg (round_robin 1) 1))
    ∧ Master [] 0 0 [StopIteration]
        [EvSend 0 (Entry (T_timeslice (Frame None None))); EvSend 0 StopIteration]
      = track 0 StopIteration m1
    ∧ comm (Master [] 0 0 [StopIteration]
        [EvSend 0 (Entry (T_timeslice (Frame None None))); EvSend 0 StopIteration])
      = comm m1
    ∧ in_progress (Master [] 0 0 [StopIteration]
        [EvSend 0 (Entry (T_timeslice (Frame None None))); EvSend 0 StopIteration])
      = <[0%nat := StopIteration]>
          (in_progress (coord (exec still_cfg (round_robin 1) 1)))
    ∧ in_progress (Master [] 0 0 [StopIteration]
        [EvSend 0 (Entry (T_timeslice (Frame None None))); EvSend 0 StopIteration])
      !! 0%nat = Some StopIteration.
Proof.
  apply (C6_send_then_track still_cfg 0%nat
           (coord (exec still_cfg (round_robin 1) 1))). reflexivity.
Defined.

(** C7 as stated fails: the slave of the still-image run reports a record of
    three items for the frame it rendered, not a (kind, duration) pair. *)
Lemma C7_counterexample :
  ∃ s' e,
    finish (exec still_cfg (round_robin 1) 2) = Some s'
    ∧ last (comm (coord s')) = Some EvDisconnect
    ∧ EvGather [[e]] ∈ comm (coord s')
    ∧ e = [FStr "timeslice"; FJob (Frame None None); FTime 1%nat]
    ∧ ¬ kind_duration_record e.
Proof.
  eexists _, _. split_and!; [reflexivity|reflexivity| |reflexivity|].
  - simpl. set_solver.
  - intros (k & d & [=]).
Qed.

(** C7, amended: after the loop the master gathers the logbook of every one
    of its slaves, and disconnects only then; a logbook is a sequence of
    records that are either ('sleep', duration) or ('timeslice', job,
    duration); the logbook is all a slave carries from one reply to the next,
    and what a reply adds to it depends on the reply alone. *)
Theorem C7_gather_logbooks cfg s :
  reachable cfg s → nproc (coord s) = 0%nat →
  (∃ s',
     finish s = Some s'
     ∧ comm (coord s')
       = comm (coord s) ++ [EvGather (logbook <$> slaves s); EvDisconnect]
     ∧ slaves s' = slaves s)
  ∧ length (logbook <$> slaves s) = nproc0 cfg
  ∧ (∀ w, (w < nproc0 cfg)%nat →
       ∃ sl, slaves s !! w = Some sl ∧ looping sl = false
             ∧ (logbook <$> slaves s) !! w = Some (logbook sl))
  ∧ (∀ l e, l ∈ logbook <$> slaves s → e ∈ l →
       sleep_record e ∨ timeslice_record e)
  ∧ (∀ reply d sl,
       logbook (slave_iter reply d sl)
       = logbook sl ++ logbook (slave_iter reply d slave_init)).
Proof.
  intros Hr Hz. pose proof (reachable_inv _ _ Hr) as H. split_and!.
  - eexists. split; [by apply (finish_spec cfg)|]. done.
  - by rewrite length_fmap, (inv_slaves_len _ _ H).
  - intros w Hw. destruct (lookup_lt_is_Some_2 (slaves s) w) as [sl Hsl].
    { by rewrite (inv_slaves_len _ _ H). }
    exists sl. split_and!; [done| |by rewrite list_lookup_fmap, Hsl].
    pose proof (halted_none_alive _ _ w H Hz) as Ha. unfold alive in Ha.
    by rewrite Hsl in Ha.
  - intros l e [sl [-> Hsl]]%list_elem_of_fmap He.
    pose proof (reachable_logs _ _ Hr) as Hlogs.
    rewrite Forall_forall in Hlogs. specialize (Hlogs sl Hsl).
    unfold log_ok in Hlogs. rewrite Forall_forall in Hlogs. by apply Hlogs.
  - intros reply d sl.
    by destruct reply as [| |[|k|j|id c]]; simpl; try destruct (formats c);
      simpl; rewrite ?app_nil_r.
Qed.

Lemma C7_witness :
  let s := exec still_cfg (round_robin 1) 2 in
  (∃ s',
     finish s = Some s'
     ∧ comm (coord s')
       = comm (coord s) ++ [EvGather (logbook <$> slaves s); EvDisconnect]
     ∧ slaves s' = slaves s)
  ∧ length (logbook <$> slaves s) = nproc0 still_cfg
  ∧ (∀ w, (w < nproc0 still_cfg)%nat →
       ∃ sl, slaves s !! w = Some sl ∧ looping sl = false
             ∧ (logbook <$> slaves s) !! w = Some (logbook sl))
  ∧ (∀ l e, l ∈ logbook <$> slaves s → e ∈ l →
       sleep_record e ∨ timeslice_record e)
  ∧ (∀ reply d sl,
       logbook (slave_iter reply d sl)
       = logbook sl ++ logbook (slave_iter reply d slave_init)).
Proof.
  apply (C7_gather_logbooks still_cfg _
           (exec_reachable still_cfg (round_robin 1) 2)). reflexivity.
Defined.

(** C8 does not hold of the code.  The branch for a reply whose head is
    none of [load_xyts], [load_xyts_ts], [timeslice] is a single [print] of
    ['... %s.' % (task)]: no handler is called and nothing is logged, but a
    reply that is a tuple of more than one item, the shape of the entry the
    master builds for the still image, makes the format raise a TypeError
    before anything is printed, and the slave is gone: it has left its loop
    and never reaches [comm.gather].  A list, or a tuple of one item, is
    printed and the slave asks again. *)
Theorem C8_unknown_tuple_raises id rest d sl :
  fn (T_foreign id (PyTuple (S rest))) = foreign id
  ∧ slave_iter (Entry (T_foreign id (PyTuple (S rest)))) d sl
    = Slave (logbook sl) (executed sl) (stdout sl) false (Some TypeError)
  ∧ gathers (slave_iter (Entry (T_foreign id (PyTuple (S rest)))) d sl) = false
  ∧ (∀ c, formats c = true →
       slave_iter (Entry (T_foreign id c)) d sl
       = Slave (logbook sl) (executed sl) (stdout sl ++ [Entry (T_foreign id c)])
               (looping sl) (raised sl)).
Proof.
  split_and!; [done..|]. intros c Hc. simpl. by rewrite Hc.
Qed.

(** C9: with 3 slaves, 10 [timeslice] entries queued before the loop and
    [msg_deps] at 0, the replies are, whatever the order in which the slaves
    ask, the 10 entries in queue order followed by 3 [StopIteration], one for
    each slave: 13 replies, none of them a wait; the loop ends exactly with
    the thirteenth; and when the slaves keep asking, the run does get there:
    all 10 entries are handed out, the queue is empty and each slave has its
    [StopIteration]. *)
Theorem C9_frames_then_stops cfg s :
  nproc0 cfg = 3%nat → has_xyts cfg = false →
  length (initial_msg_list cfg) = 10%nat → reachable cfg s →
  (initial_msg_deps cfg = 0
   ∧ msg_list (coord (initial cfg)) = initial_msg_list cfg
   ∧ Forall (λ x, ∃ j, x = Entry (T_timeslice j)) (initial_msg_list cfg))
  ∧ replies (coord s)
    = take (length (replies (coord s)))
           (initial_msg_list cfg ++ replicate 3 StopIteration)
  ∧ (PyNone ∉ replies (coord s))
  ∧ (∀ w x, EvSend w x ∈ comm (coord s) → (w < 3)%nat)
  ∧ (nproc (coord s) = 0%nat ↔ length (replies (coord s)) = 13%nat)
  ∧ (nproc (coord s) ≠ 0%nat → ∃ w, (w < 3)%nat ∧ enabled s w = true)
  ∧ (nproc (coord s) = 0%nat →
     msg_list (coord s) = []
     ∧ replies (coord s) = initial_msg_list cfg ++ replicate 3 StopIteration
     ∧ ∀ w, (w < 3)%nat → times_sent StopIteration w (coord s) = 1%nat)
  ∧ (∀ sched, fair cfg sched →
     ∃ n, ∀ n', (n ≤ n')%nat →
       nproc (coord (exec cfg sched n')) = 0%nat
       ∧ msg_list (coord (exec cfg sched n')) = []
       ∧ replies (coord (exec cfg sched n'))
         = initial_msg_list cfg ++ replicate 3 StopIteration
       ∧ length (replies (coord (exec cfg sched n'))) = 13%nat
       ∧ ∀ w, (w < 3)%nat →
           times_sent StopIteration w (coord (exec cfg sched n')) = 1%nat).
Proof.
  intros HW Hx Hlen Hr.
  assert (Forall (λ x, ∃ j, x = Entry (T_timeslice j)) (initial_msg_list cfg)) as Hjobs.
  { unfold initial_msg_list. rewrite Hx. destruct (animate cfg).
    - rewrite !Forall_app. split_and!; [done|..];
        apply Forall_fmap, Forall_forall; intros i _; by eexists.
    - apply Forall_singleton. by eexists. }
  assert (∀ s0, reachable cfg s0 → nproc (coord s0) = 0%nat →
            msg_list (coord s0) = []
            ∧ replies (coord s0) = initial_msg_list cfg ++ replicate 3 StopIteration
            ∧ ∀ w, (w < 3)%nat → times_sent StopIteration w (coord s0) = 1%nat)
    as Hend.
  { intros s0 Hr0 Hz. pose proof (reachable_inv _ _ Hr0) as H0.
    pose proof (reachable_fifo _ _ Hx Hr0) as Hfifo0. rewrite HW in Hfifo0.
    assert (nproc (coord s0) < nproc0 cfg)%nat as Hlt by lia.
    destruct (inv_drain _ _ H0 Hlt) as [Hnil _]. split_and!; [done| |].
    - rewrite Hnil, Hz in Hfifo0. simpl in Hfifo0. by rewrite app_nil_r in Hfifo0.
    - intros w Hw. rewrite (stops_once _ _ _ H0) by lia.
      by rewrite (halted_none_alive _ _ _ H0 Hz). }
  pose proof (reachable_inv _ _ Hr) as H.
  pose proof (reachable_fifo _ _ Hx Hr) as Hfifo. rewrite HW in Hfifo.
  assert (replies (coord s)
          = take (length (replies (coord s)))
                 (initial_msg_list cfg ++ replicate 3 StopIteration)) as Hpre.
  { by rewrite <- Hfifo, take_app_length. }
  pose proof (f_equal length Hfifo) as Hcount.
  rewrite !length_app, !length_replicate, Hlen in Hcount.
  split; [|split_and!].
  - split_and!; [|done..]. unfold initial_msg_deps. by rewrite Hx.
  - done.
  - rewrite Hpre. intros Hin%subseteq_take.
    apply elem_of_app in Hin as [Hin|Hin].
    + rewrite Forall_forall in Hjobs. by destruct (Hjobs _ Hin).
    + by apply elem_of_replicate in Hin as [? _].
  - intros w x Hin. rewrite <- HW. by eapply reachable_dests.
  - split; intros Hz.
    + assert (nproc (coord s) < nproc0 cfg)%nat as Hlt by lia.
      destruct (inv_drain _ _ H Hlt) as [Hnil _]. rewrite Hnil in Hcount.
      simpl in Hcount. lia.
    + lia.
  - intros Hn. destruct (progressive_exists _ _ H Hn) as (p & Hp & _).
    exists p. rewrite <- HW. split; [by eapply alive_lt|by eapply alive_enabled].
  - by apply Hend.
  - intros sched Hfair.
    destruct (exec_terminates cfg sched (or_intror Hx) Hfair) as [n Hn].
    exists n. intros n' Hle. replace n' with (n + (n' - n))%nat by lia.
    rewrite (exec_halted _ _ _ _ Hn).
    destruct (Hend _ (exec_reachable cfg sched n) Hn) as (Hnil & Hrep & Hst).
    split_and!; [done..| |done].
    by rewrite Hrep, length_app, length_replicate, Hlen.
Qed.

Lemma C9_witness :
  let cfg := no_xyts_cfg in
  let s := exec no_xyts_cfg (round_robin 3) 13 in
  (initial_msg_deps cfg = 0
   ∧ msg_list (coord (initial cfg)) = initial_msg_list cfg
   ∧ Forall (λ x, ∃ j, x = Entry (T_timeslice j)) (initial_msg_list cfg))
  ∧ replies (coord s)
    = take (length (replies (coord s)))
           (initial_msg_list cfg ++ replicate 3 StopIteration)
  ∧ (PyNone ∉ replies (coord s))
  ∧ (∀ w x, EvSend w x ∈ comm (coord s) → (w < 3)%nat)
  ∧ (nproc (coord s) = 0%nat ↔ length (replies (coord s)) = 13%nat)
  ∧ (nproc (coord s) ≠ 0%nat → ∃ w, (w < 3)%nat ∧ enabled s w = true)
  ∧ (nproc (coord s) = 0%nat →
     msg_list (coord s) = []
     ∧ replies (coord s) = initial_msg_list cfg ++ replicate 3 StopIteration
     ∧ ∀ w, (w < 3)%nat → times_sent StopIteration w (coord s) = 1%nat)
  ∧ (∃ n, ∀ n', (n ≤ n')%nat →
       nproc (coord (exec cfg (round_robin 3) n')) = 0%nat
       ∧ msg_list (coord (exec cfg (round_robin 3) n')) = []
       ∧ replies (coord (exec cfg (round_robin 3) n'))
         = initial_msg_list cfg ++ replicate 3 StopIteration
       ∧ length (replies (coord (exec cfg (round_robin 3) n'))) = 13%nat
       ∧ ∀ w, (w < 3)%nat →
           times_sent StopIteration w (coord (exec cfg (round_robin 3) n')) = 1%nat).
Proof.
  destruct (C9_frames_then_stops no_xyts_cfg
              (exec no_xyts_cfg (round_robin 3) 13))
    as (H1 & H2 & H3 & H4 & H5 & H6 & H7 & H8);
    [reflexivity|reflexivity|reflexivity|apply exec_reachable|].
  split_and!; [apply H1..|exact H2|exact H3|exact H4|exact H5|exact H6|exact H7|].
  apply (H8 (round_robin 3)), (round_robin_fair no_xyts_cfg).
Defined.

(** C10: between two passes of the loop [msg_list] holds jobs only.  [None]
    or [StopIteration] is appended only to an empty queue, is the reply of
    that same pass, sent to the slave being served, and leaves the queue
    empty again: it never stands behind a job and never reaches a slave other
    than the one whose request made the master append it. *)
Theorem C10_sentinels_leave_at_once cfg s :
  reachable cfg s →
  Forall (λ x, sentinel x = false) (msg_list (coord s))
  ∧ (∀ m, msg_list m ≠ [] → refill m = m)
  ∧ (∀ m, msg_list m = [] →
       ∃ x, sentinel x = true ∧ msg_list (refill m) = [x])
  ∧ (∀ w d s', enabled s w = true → request cfg w d s = Ok s' →
       ∃ x m1,
         tracked cfg s w m1
         ∧ Forall (λ y, sentinel y = false) (msg_list m1)
         ∧ comm (coord s') = comm (coord s) ++ [EvSend w x]
         ∧ msg_list (refill m1) = x :: msg_list (coord s')
         ∧ (sentinel x = true →
            msg_list m1 = [] ∧ msg_list (refill m1) = [x]
            ∧ msg_list (coord s') = [])
         ∧ (sentinel x = false → msg_list m1 = x :: msg_list (coord s'))).
Proof.
  intros Hr. pose proof (reachable_inv _ _ Hr) as H. split_and!.
  - apply (job_ok_sentinel cfg), (inv_queue _ _ H).
  - intros m Hne. unfold refill. destruct (msg_list m); [done|]. done.
  - intros m Hnil. unfold refill. rewrite Hnil. simpl.
    destruct (decide (msg_deps m = 0)); simpl; rewrite Hnil;
      [by exists StopIteration|by exists PyNone].
  - intros w d s' Hen Hreq.
    destruct (request_comm _ _ _ _ _ H Hen Hreq)
      as (x & m1 & q & Htr & Hjobs%job_ok_sentinel & Hcm & Hq & Hq').
    subst q. exists x, m1.
    split_and!; [done..| |].
    + intros Hs. destruct (msg_list m1) as [|y q] eqn:E.
      * unfold refill in Hq |- *. rewrite E in Hq |- *. simpl in *.
        destruct (decide (msg_deps m1 = 0)); simpl in *; rewrite E in Hq |- *;
          simpl in *; injection Hq as <- <-; done.
      * exfalso. unfold refill in Hq. rewrite E in Hq. simpl in Hq. rewrite E in Hq.
        injection Hq as -> _. apply Forall_cons in Hjobs as [Hy _]. congruence.
    + intros Hs. destruct (msg_list m1) as [|y q] eqn:E.
      * exfalso. unfold refill in Hq. rewrite E in Hq. simpl in Hq.
        destruct (decide (msg_deps m1 = 0)); simpl in Hq; rewrite E in Hq;
          simpl in Hq; injection Hq as <- _; done.
      * unfold refill in Hq. rewrite E in Hq. simpl in Hq. by rewrite E in Hq.
Qed.

Lemma C10_witness :
  let cfg := movie_cfg in
  let s := exec movie_cfg (round_robin 2) 7 in
  Forall (λ x, sentinel x = false) (msg_list (coord s))
  ∧ (∀ m, msg_list m ≠ [] → refill m = m)
  ∧ (∀ m, msg_list m = [] →
       ∃ x, sentinel x = true ∧ msg_list (refill m) = [x])
  ∧ (∀ w d s', enabled s w = true → request cfg w d s = Ok s' →
       ∃ x m1,
         tracked cfg s w m1
         ∧ Forall (λ y, sentinel y = false) (msg_list m1)
         ∧ comm (coord s') = comm (coord s) ++ [EvSend w x]
         ∧ msg_list (refill m1) = x :: msg_list (coord s')
         ∧ (sentinel x = true →
            msg_list m1 = [] ∧ msg_list (refill m1) = [x]
            ∧ msg_list (coord s') = [])
         ∧ (sentinel x = false → msg_list m1 = x :: msg_list (coord s'))).
Proof.
  exact (C10_sentinels_leave_at_once movie_cfg _
           (exec_reachable movie_cfg (round_robin 2) 7)).
Defined.

(** * Further properties of the run *)

(** ** What a pass sends and stores *)

Lemma pass_reply cfg s w d s' :
  inv cfg s → enabled s w = true → request cfg w d s = Ok s' →
  ∃ finished sl m1 new x,
    in_progress (coord s) !! w = Some finished ∧ finished ≠ StopIteration
    ∧ slaves s !! w = Some sl ∧ looping sl = true
    ∧ resolve cfg finished (coord s) = Ok m1
    ∧ msg_list m1 = msg_list (coord s) ++ new
    ∧ (generator finished = false → new = [])
    ∧ msg_list (refill m1) = x :: msg_list (coord s')
    ∧ (sentinel x = true ∨ job_ok cfg x)
    ∧ (sentinel x = true → msg_list m1 = [] ∧ msg_list (coord s') = [])
    ∧ (sentinel x = false → msg_list m1 = x :: msg_list (coord s'))
    ∧ (x = PyNone → msg_deps m1 ≠ 0)
    ∧ comm (coord s') = comm (coord s) ++ [EvSend w x]
    ∧ in_progress (coord s') = <[w := x]> (in_progress (coord s))
    ∧ slaves s' = <[w := slave_iter x d sl]> (slaves s).
Proof.
  intros H Hen Hreq.
  destruct (pass_spec cfg s w d H Hen)
    as [(_ & Heq & _)
       |(finished & sl & m1 & new & x & q & n' & Hw & Hstop & Hsl & Hl & Hres
         & Hml & Hnew & Hdeps & Hwt & Hnogen & Hcase & Heq)];
    [by rewrite Heq in Hreq|].
  rewrite Heq in Hreq. injection Hreq as <-.
  exists finished, sl, m1, new, x. simpl.
  assert (Forall (job_ok cfg) (msg_list m1)) as Hq1.
  { rewrite Hml. apply Forall_app. split; [apply (inv_queue _ _ H)|done]. }
  destruct Hcase as [[E ->]|[(E & Hz & -> & -> & ->)|(E & Hz & -> & -> & ->)]].
  - rewrite E in Hq1. apply Forall_cons in Hq1 as [Hx _].
    pose proof (job_ok_not_sentinel _ _ Hx) as Hns.
    split_and!; try done; try (by right); try congruence.
    + unfold refill. rewrite E. done.
    + intros ->. done.
  - split_and!; try done; try (by left).
    unfold refill. rewrite E. simpl. rewrite decide_True by done. simpl. by rewrite E.
  - split_and!; try done; try (by left).
    unfold refill. rewrite E. simpl. rewrite decide_False by done. simpl. by rewrite E.
Qed.

(** X1: no pass of a run makes the master raise: a request taken in a
    reachable state is always answered, and the state it leads to is
    reachable again.  The one statement of the loop that can raise in a run
    is the division by [meta['t_frames']] in [scale_t]; it is kept from it
    by the first hypothesis. *)
Theorem X1_master_never_raises cfg s w d :
  t_frames cfg ≠ 0 ∨ has_xyts cfg = false →
  reachable cfg s → enabled s w = true →
  ∃ x m' s',
    master_iter cfg w (coord s) = Ok (x, m')
    ∧ request cfg w d s = Ok s'
    ∧ coord s' = m'
    ∧ reachable cfg s'.
Proof.
  intros Hdiv Hr Hen. pose proof (reachable_inv _ _ Hr) as H.
  destruct (request_ok cfg s w d Hdiv H Hen) as [s' Hreq].
  pose proof Hreq as Hreq'. unfold request in Hreq'.
  destruct (master_iter cfg w (coord s)) as [[x m']|] eqn:Hit; [|done].
  simpl in Hreq'. injection Hreq' as <-.
  eexists x, m', _. split_and!; [done|done|done|]. by eapply reach_request.
Qed.

Lemma X1_witness :
  ∃ x m' s',
    master_iter movie_cfg 1 (coord (exec movie_cfg (round_robin 2) 7)) = Ok (x, m')
    ∧ request movie_cfg 1 3%nat (exec movie_cfg (round_robin 2) 7) = Ok s'
    ∧ coord s' = m'
    ∧ reachable movie_cfg s'.
Proof.
  apply (X1_master_never_raises movie_cfg (exec movie_cfg (round_robin 2) 7)
           1%nat 3%nat);
    [left; vm_compute; discriminate|apply exec_reachable|vm_compute; reflexivity].
Defined.

(** ** What each slave was sent *)

Lemma sent_to_snoc w' m m' w x :
  comm m' = comm m ++ [EvSend w x] →
  sent_to w' m' = sent_to w' m ++ (if decide (w = w') then [x] else []).
Proof.
  unfold sent_to. intros ->. rewrite omap_app. f_equal. simpl.
  by destruct (decide (w = w')).
Qed.

Lemma slave_iter_fields x d sl :
  executed (slave_iter x d sl)
  = executed sl ++ filter (λ y, handled y = true) [x]
  ∧ omap logged_frame (logbook (slave_iter x d sl))
    = omap logged_frame (logbook sl) ++ frames_in [x]
  ∧ filter (λ e, is_sleep e = true) (logbook (slave_iter x d sl))
    = filter (λ e, is_sleep e = true) (logbook sl)
      ++ (if decide (x = PyNone) then [[FStr "sleep"; FTime d]] else [])
  ∧ ((∀ id c, x ≠ Entry (T_foreign id c)) → stdout (slave_iter x d sl) = stdout sl).
Proof.
  destruct x as [| |[|k|j|id c]]; simpl; try destruct (formats c); simpl;
    rewrite ?omap_app, ?filter_app, ?app_nil_r; split_and!; try done;
    intros Hno; by destruct (Hno id c).
Qed.

Lemma reply_not_foreign cfg x id c :
  sentinel x = true ∨ job_ok cfg x → x ≠ Entry (T_foreign id c).
Proof. intros [Hs|Hj] ->; done. Qed.

Lemma slot_last_sent cfg s w :
  reachable cfg s → (w < nproc0 cfg)%nat →
  in_progress (coord s) !! w = Some (default PyNone (last (sent_to w (coord s)))).
Proof.
  intros Hr Hw. induction Hr as [|s w' d s' Hr IH Hen Hreq].
  - simpl. by rewrite lookup_replicate_2.
  - pose proof (reachable_inv _ _ Hr) as H.
    destruct (pass_reply _ _ _ _ _ H Hen Hreq)
      as (finished & sl & m1 & new & x & Hf & _ & Hsl & _ & _ & _ & _ & _ & _ & _
          & _ & _ & Hcm & Hip & _).
    rewrite Hip, (sent_to_snoc w _ _ w' x Hcm).
    destruct (decide (w' = w)) as [->|Hne].
    + rewrite last_snoc. simpl. apply list_lookup_insert_eq.
      by rewrite (inv_slots_len _ _ H).
    + rewrite app_nil_r, list_lookup_insert_ne by done. apply IH.
Qed.

(** X2: the slot of a slave always holds the last message sent to it, and
    [None] before the first: the master sees a job finished only after it
    has handed that very job to that slave, and a slave is never given a
    second job before its first is seen finished. *)
Theorem X2_slot_is_last_sent cfg s w :
  reachable cfg s → (w < nproc0 cfg)%nat →
  in_progress (coord s) !! w = Some (default PyNone (last (sent_to w (coord s)))).
Proof. apply slot_last_sent. Qed.

Lemma X2_witness :
  in_progress (coord (exec movie_cfg (round_robin 2) 7)) !! 1%nat
  = Some (default PyNone (last (sent_to 1 (coord (exec movie_cfg (round_robin 2) 7))))).
Proof.
  apply (X2_slot_is_last_sent movie_cfg _ 1%nat
           (exec_reachable movie_cfg (round_robin 2) 7)). simpl. lia.
Defined.

Lemma slave_mirror cfg s w sl :
  reachable cfg s → slaves s !! w = Some sl →
  executed sl = filter (λ y, handled y = true) (sent_to w (coord s))
  ∧ stdout sl = []
  ∧ omap logged_frame (logbook sl) = frames_in (sent_to w (coord s))
  ∧ length (filter (λ e, is_sleep e = true) (logbook sl))
    = length (filter (λ y, y = PyNone) (sent_to w (coord s)))
  ∧ (looping sl = false ↔ StopIteration ∈ sent_to w (coord s)).
Proof.
  intros Hr. revert sl. induction Hr as [|s w' d s' Hr IH Hen Hreq]; intros sl Hsl.
  - apply lookup_replicate in Hsl as [-> _]. simpl. split_and!; try done.
    split; [done|]. by intros ?%elem_of_nil.
  - pose proof (reachable_inv _ _ Hr) as H.
    destruct (pass_reply _ _ _ _ _ H Hen Hreq)
      as (finished & sl0 & m1 & new & x & _ & _ & Hsl0 & Hl0 & _ & _ & _ & _ & Hx
          & _ & _ & _ & Hcm & _ & Hsls).
    rewrite Hsls in Hsl. rewrite (sent_to_snoc w _ _ w' x Hcm).
    destruct (decide (w' = w)) as [->|Hne].
    + rewrite list_lookup_insert_eq in Hsl by (by eapply lookup_lt_Some).
      injection Hsl as <-.
      destruct (IH _ Hsl0) as (He & Ho & Hlog & Hsleep & Hloop).
      destruct (slave_iter_fields x d sl0) as (He' & Hlog' & Hsleep' & Ho').
      split_and!.
      * by rewrite He', He, filter_app.
      * rewrite Ho'; [done|]. intros id c. by eapply reply_not_foreign.
      * rewrite Hlog', Hlog. unfold frames_in. by rewrite omap_app.
      * rewrite Hsleep', filter_app, !length_app, Hsleep. f_equal.
        by destruct x.
      * rewrite looping_slave_iter
          by (intros id c; by eapply reply_not_foreign).
        rewrite Hl0, elem_of_app, list_elem_of_singleton.
        destruct (decide (x = StopIteration)) as [->|Hns].
        -- split; [by right|done].
        -- split; [done|]. intros [Hin|?]; [|done]. apply Hloop in Hin. congruence.
    + rewrite list_lookup_insert_ne in Hsl by done. rewrite app_nil_r. by apply IH.
Qed.

(** X3: a slave calls a handler for exactly the jobs it was sent, in the
    order it was sent them, and prints no unknown task; its logbook holds one
    sleep record for each [None] it was sent and the frame of each
    [timeslice] job it was sent, in order; it has left its loop exactly when
    it was sent [StopIteration]. *)
Theorem X3_slave_mirrors_replies cfg s w sl :
  reachable cfg s → slaves s !! w = Some sl →
  executed sl = filter (λ y, handled y = true) (sent_to w (coord s))
  ∧ stdout sl = []
  ∧ omap logged_frame (logbook sl) = frames_in (sent_to w (coord s))
  ∧ length (filter (λ e, is_sleep e = true) (logbook sl))
    = length (filter (λ y, y = PyNone) (sent_to w (coord s)))
  ∧ (looping sl = false ↔ StopIteration ∈ sent_to w (coord s)).
Proof. apply slave_mirror. Qed.

Lemma X3_witness :
  let s := exec movie_cfg (round_robin 2) 12 in
  ∃ sl, slaves s !! 1%nat = Some sl
  ∧ executed sl = filter (λ y, handled y = true) (sent_to 1 (coord s))
  ∧ stdout sl = []
  ∧ omap logged_frame (logbook sl) = frames_in (sent_to 1 (coord s))
  ∧ length (filter (λ e, is_sleep e = true) (logbook sl))
    = length (filter (λ y, y = PyNone) (sent_to 1 (coord s)))
  ∧ (looping sl = false ↔ StopIteration ∈ sent_to 1 (coord s)).
Proof.
  intros s. eexists. split; [vm_compute; reflexivity|].
  apply (X3_slave_mirrors_replies movie_cfg s 1%nat _
           (exec_reachable movie_cfg (round_robin 2) 12)). vm_compute. reflexivity.
Defined.

(** ** Waiting *)

(** X4: the master answers [None] only while another slave, still in its
    loop, is busy with [load_xyts] or [load_xyts_ts]; the slave that is told
    to wait had an empty queue in front of it. *)
Theorem X4_wait_means_generator_in_flight cfg s w d s' :
  reachable cfg s → enabled s w = true → request cfg w d s = Ok s' →
  last (comm (coord s')) = Some (EvSend w PyNone) →
  msg_list (coord s) = [] ∧ msg_list (coord s') = []
  ∧ ∃ w' x, w' ≠ w ∧ in_progress (coord s) !! w' = Some x
            ∧ generator x = true ∧ alive s w' = true.
Proof.
  intros Hr Hen Hreq Hlast. pose proof (reachable_inv _ _ Hr) as H.
  destruct (pass_reply _ _ _ _ _ H Hen Hreq)
    as (finished & sl & m1 & new & x & Hf & _ & Hsl & _ & Hres & Hml & _ & _ & _
        & Hsent & _ & Hnone & Hcm & _ & _).
  rewrite Hcm, last_snoc in Hlast. injection Hlast as ->.
  destruct (Hsent eq_refl) as [Hnil1 Hnil']. specialize (Hnone eq_refl).
  rewrite Hnil1 in Hml. symmetry in Hml. apply app_eq_nil in Hml as [Hnil ->].
  split_and!; [done..|].
  destruct (tracked_deps cfg s w m1 H Hen) as (f' & Hf' & Hdeps & Hle).
  { by exists finished. }
  rewrite Hf in Hf'. injection Hf' as <-. rewrite Hnil1 in Hdeps.
  change (gens []) with 0%nat in Hdeps.
  pose proof (gens_insert _ _ _ PyNone Hf) as Hins.
  change (gens [PyNone]) with 0%nat in Hins.
  destruct (sum_list_with_pos (λ x, if generator x then 1%nat else 0%nat)
              (<[w:=PyNone]> (in_progress (coord s)))) as (i & x & Hi & Hx).
  { fold (gens (<[w:=PyNone]> (in_progress (coord s)))). lia. }
  assert (i ≠ w) as Hne.
  { intros ->. rewrite list_lookup_insert_eq in Hi by (by eapply lookup_lt_Some).
    injection Hi as <-. simpl in Hx. lia. }
  rewrite list_lookup_insert_ne in Hi by done.
  assert (generator x = true) as Hg by (destruct (generator x); [done|lia]).
  exists i, x. split_and!; [done..|].
  destruct (lookup_lt_is_Some_2 (slaves s) i) as [sl' Hsl'].
  { rewrite (inv_slaves_len _ _ H), <- (inv_slots_len _ _ H). by eapply lookup_lt_Some. }
  apply alive_lookup. exists sl'. split; [done|].
  destruct (looping sl') eqn:El; [done|].
  apply (inv_stopped _ _ H _ _ Hsl') in El. rewrite Hi in El. by injection El as ->.
Qed.

Lemma X4_witness :
  let s := exec movie_cfg idle_second 5 in
  let s' := exec movie_cfg idle_second 6 in
  msg_list (coord s) = [] ∧ msg_list (coord s') = []
  ∧ ∃ w' x, w' ≠ 1%nat ∧ in_progress (coord s) !! w' = Some x
            ∧ generator x = true ∧ alive s w' = true.
Proof.
  apply (X4_wait_means_generator_in_flight movie_cfg _ 1%nat 1%nat _
           (exec_reachable movie_cfg idle_second 5)); reflexivity.
Defined.

(** ** Queue order *)

Lemma history_step cfg s w d s' :
  inv cfg s → enabled s w = true → request cfg w d s = Ok s' →
  ∃ finished new,
    in_progress (coord s) !! w = Some finished
    ∧ (generator finished = false → new = [])
    ∧ Forall (job_ok cfg) new
    ∧ history (coord s') = history (coord s) ++ new.
Proof.
  intros H Hen Hreq.
  destruct (pass_spec cfg s w d H Hen)
    as [(_ & Heq & _)
       |(finished & sl & m1 & new & x & q & n' & Hw & Hstop & Hsl & Hl & Hres
         & Hml & Hnew & Hdeps & Hwt & Hnogen & Hcase & Heq)];
    [by rewrite Heq in Hreq|].
  rewrite Heq in Hreq. injection Hreq as <-.
  exists finished, new. split_and!; [done..|].
  unfold history. rewrite (replies_snoc (coord s) _ w x) by done. simpl.
  rewrite filter_app, <- !app_assoc. f_equal.
  assert (Forall (job_ok cfg) (msg_list m1)) as Hq1.
  { rewrite Hml. apply Forall_app. split; [apply (inv_queue _ _ H)|done]. }
  destruct Hcase as [[E ->]|[(E & Hz & -> & -> & ->)|(E & Hz & -> & -> & ->)]].
  - rewrite <- Hml, E. rewrite E in Hq1. apply Forall_cons in Hq1 as [Hx _].
    rewrite filter_cons, filter_nil.
    by rewrite decide_True by (by eapply job_ok_not_sentinel).
  - by rewrite <- Hml, E.
  - by rewrite <- Hml, E.
Qed.

Lemma reachable_history cfg s :
  reachable cfg s → initial_msg_list cfg `prefix_of` history (coord s).
Proof.
  induction 1 as [|s w d s' Hr IH Hen Hreq]; [done|].
  pose proof (reachable_inv _ _ Hr) as H.
  destruct (history_step _ _ _ _ _ H Hen Hreq) as (f & new & _ & _ & _ & ->).
  by apply prefix_app_r.
Qed.

(** X7: the queue is served first in, first out, whichever slave asks: a
    pass sends the head of a non-empty queue; what was ever queued (sent
    already, or waiting) only grows at its end, starting from the queue built
    before the loop; and when the loop has ended nothing is left waiting. *)
Theorem X7_first_in_first_out cfg s :
  reachable cfg s →
  initial_msg_list cfg `prefix_of` history (coord s)
  ∧ (∀ w d s', enabled s w = true → request cfg w d s = Ok s' →
       history (coord s) `prefix_of` history (coord s')
       ∧ ∀ x q, msg_list (coord s) = x :: q →
           last (comm (coord s')) = Some (EvSend w x))
  ∧ ((0 < nproc0 cfg)%nat → nproc (coord s) = 0%nat →
     msg_list (coord s) = []
     ∧ history (coord s) = filter (λ x, sentinel x = false) (replies (coord s))).
Proof.
  intros Hr. pose proof (reachable_inv _ _ Hr) as H. split_and!.
  - by apply reachable_history.
  - intros w d s' Hen Hreq. split.
    + destruct (history_step _ _ _ _ _ H Hen Hreq) as (f & new & _ & _ & _ & ->).
      by apply prefix_app_r.
    + intros x q Hq.
      destruct (pass_reply _ _ _ _ _ H Hen Hreq)
        as (finished & sl & m1 & new & y & _ & _ & _ & _ & _ & Hml & _ & _ & _
            & Hsent & Hjob & _ & Hcm & _ & _).
      rewrite Hcm, last_snoc. do 2 f_equal.
      rewrite Hq in Hml. destruct (sentinel y) eqn:Es.
      * destruct (Hsent eq_refl) as [Hnil _]. by rewrite Hnil in Hml.
      * rewrite (Hjob eq_refl) in Hml. by injection Hml.
  - intros HW Hz. destruct (inv_drain _ _ H) as [Hnil _]; [lia|].
    split; [done|]. unfold history. by rewrite Hnil, app_nil_r.
Qed.

Lemma X7_witness :
  let s := exec movie_cfg (round_robin 2) 7 in
  initial_msg_list movie_cfg `prefix_of` history (coord s)
  ∧ (∀ w d s', enabled s w = true → request movie_cfg w d s = Ok s' →
       history (coord s) `prefix_of` history (coord s')
       ∧ ∀ x q, msg_list (coord s) = x :: q →
           last (comm (coord s')) = Some (EvSend w x))
  ∧ ((0 < nproc0 movie_cfg)%nat → nproc (coord s) = 0%nat →
     msg_list (coord s) = []
     ∧ history (coord s) = filter (λ x, sentinel x = false) (replies (coord s))).
Proof.
  exact (X7_first_in_first_out movie_cfg _
           (exec_reachable movie_cfg (round_robin 2) 7)).
Defined.

(** ** Every frame once *)

Lemma bind_insert_Permutation {A B} (f : A → list B) (l : list A) i x y :
  l !! i = Some y → (<[i := x]> l ≫= f) ++ f y ≡ₚ (l ≫= f) ++ f x.
Proof.
  revert i. induction l as [|a l IH]; intros [|i] Hi; simplify_eq/=.
  - rewrite <- !(assoc_L (++)). rewrite (Permutation_app_comm (l ≫= f) (f y)).
    rewrite (Permutation_app_comm (l ≫= f) (f x)). rewrite !(assoc_L (++)).
    by rewrite (Permutation_app_comm (f x) (f y)).
  - rewrite <- !(assoc_L (++)). by rewrite (IH _ Hi).
Qed.

Lemma bind_replicate_nil {A B} (f : A → list B) n x :
  f x = [] → replicate n x ≫= f = [].
Proof.
  intros Hf. induction n as [|n IH]; [done|].
  change (replicate (S n) x) with (x :: replicate n x).
  by rewrite bind_cons, IH, Hf.
Qed.

(** The entries dependency tracking appends for a finished entry. *)
Lemma resolve_new cfg s w finished m1 :
  inv cfg s → nproc (coord s) ≠ 0%nat →
  in_progress (coord s) !! w = Some finished →
  resolve cfg finished (coord s) = Ok m1 →
  msg_list m1
  = msg_list (coord s)
    ++ match finished with
       | Entry T_load_xyts => shards (nproc0 cfg)
       | Entry (T_load_xyts_ts k) => shard_frames cfg k
       | _ => []
       end.
Proof.
  intros H Hn Hw Hres. pose proof (inv_generator_slot _ _ _ _ H Hw) as Hgen.
  destruct finished as [| |[|k|j|id c]]; simpl in Hres;
    try (injection Hres as <-; by rewrite app_nil_r); [done|..].
  - destruct Hgen as (_ & _ & Hfull); [done|]. injection Hres as <-. simpl.
    by rewrite Hfull.
  - destruct Hgen as (Hx & Ha & Hfull); [done|]. rewrite Hx, Ha, Hfull in Hres.
    simpl in Hres. destruct (decide _); [done|].
    destruct (_ && _); [done|]. rewrite andb_false_r in Hres.
    by injection Hres as <-.
Qed.

Lemma yield_frames cfg l :
  (dyn_frame cfg <$> l) ≫= yield cfg = dyn_frame cfg <$> l.
Proof. induction l as [|i l IH]; [done|]. by rewrite fmap_cons, bind_cons, IH. Qed.

Lemma yield_new cfg finished :
  match finished with
  | Entry T_load_xyts => shards (nproc0 cfg)
  | Entry (T_load_xyts_ts k) => shard_frames cfg k
  | _ => []
  end ≫= yield cfg = desc cfg finished.
Proof.
  destruct finished as [| |[|k|j|id c]]; try done.
  - simpl. unfold shards. by rewrite list_fmap_bind.
  - apply yield_frames.
Qed.

Lemma filter_frame_yield x :
  sentinel x = true ∨ (∃ cfg, job_ok cfg x) →
  filter (λ y, is_frame y = true) [x] = if is_frame x then [x] else [].
Proof. intros _. rewrite filter_cons, filter_nil. by destruct x as [| |[|k|j|id c]]. Qed.

Lemma reachable_frames cfg s :
  reachable cfg s →
  filter (λ y, is_frame y = true) (replies (coord s))
    ++ (msg_list (coord s) ≫= yield cfg)
    ++ (in_progress (coord s) ≫= desc cfg)
  ≡ₚ all_frames cfg.
Proof.
  induction 1 as [|s w d s' Hr IH Hen Hreq].
  - simpl. unfold all_frames.
    rewrite (bind_replicate_nil (desc cfg)) by done.
    by rewrite app_nil_r.
  - pose proof (reachable_inv _ _ Hr) as H.
    destruct (enabled_alive _ _ Hen) as [Hn _].
    destruct (pass_reply _ _ _ _ _ H Hen Hreq)
      as (finished & sl & m1 & new & x & Hf & _ & _ & _ & Hres & _ & _ & _ & Hx
          & Hsent & Hjob & _ & Hcm & Hip & _).
    pose proof (resolve_new _ _ _ _ _ H Hn Hf Hres) as Hml.
    assert (msg_list m1 ≫= yield cfg
            = yield cfg x ++ (msg_list (coord s') ≫= yield cfg)) as Hq.
    { destruct (sentinel x) eqn:Es.
      - destruct (Hsent eq_refl) as [-> ->]. by destruct x.
      - by rewrite (Hjob eq_refl). }
    rewrite Hml, bind_app, yield_new in Hq.
    pose proof (bind_insert_Permutation (desc cfg) _ _ x _ Hf) as Hslots.
    rewrite (replies_snoc (coord s) _ w x Hcm), filter_app, Hip.
    rewrite (filter_frame_yield x) by (destruct Hx; eauto).
    apply (Permutation_app_inv_r (desc cfg finished)).
    rewrite <- IH.
    rewrite <- !(assoc_L (++)). apply Permutation_app_head.
    rewrite Hslots.
    rewrite (Permutation_app_comm (in_progress (coord s) ≫= desc cfg)
               (desc cfg finished)).
    rewrite (assoc_L (++) (msg_list (coord s) ≫= yield cfg)), Hq.
    unfold yield at 2. rewrite <- !(assoc_L (++)). apply Permutation_app_head.
    rewrite (assoc_L (++) (msg_list (coord s') ≫= yield cfg)).
    apply Permutation_app_comm.
Qed.

Lemma ready_frames_partition cfg :
  (0 < nproc0 cfg)%nat →
  seq 0 (nproc0 cfg) ≫= (λ i, ready_frames cfg (Shard i (nproc0 cfg)) (nproc0 cfg))
  ≡ₚ filter (λ i, xpos cfg i < nt cfg)%nat (seq 0 (frames_sr cfg)).
Proof.
  intros HW. apply NoDup_Permutation.
  - apply NoDup_bind; [|intros i _; apply NoDup_filter, NoDup_seq|apply NoDup_seq].
    intros i1 i2 y Hi1 Hi2 [H1 _]%list_elem_of_filter [H2 _]%list_elem_of_filter.
    apply elem_of_seq in Hi1, Hi2. simpl in *.
    eapply in_range_disjoint; [| |exact H1|exact H2]; lia.
  - apply NoDup_filter, NoDup_seq.
  - intros y. rewrite list_elem_of_bind, list_elem_of_filter. split.
    + intros (i & [Hr Hy]%list_elem_of_filter & Hi%elem_of_seq). simpl in Hr.
      apply in_range_spec in Hr as [_ Hlt]; [done|lia].
    + intros [Hlt Hy]. exists (xpos cfg y mod nproc0 cfg)%nat.
      assert (xpos cfg y mod nproc0 cfg < nproc0 cfg)%nat as Hm
        by (apply Nat.mod_upper_bound; lia).
      split; [|apply elem_of_seq; lia].
      apply list_elem_of_filter. split; [|done]. simpl. by apply in_range_spec.
Qed.

Lemma yield_static cfg (l : list Z) :
  (static_frame <$> l) ≫= yield cfg = static_frame <$> l.
Proof. induction l as [|i l IH]; [done|]. by rewrite fmap_cons, bind_cons, IH. Qed.

Lemma all_frames_expected cfg :
  (0 < nproc0 cfg)%nat → all_frames cfg ≡ₚ expected_frames cfg.
Proof.
  intros HW. unfold all_frames, expected_frames, initial_msg_list.
  destruct (animate cfg); [|done].
  rewrite !bind_app, !yield_static.
  rewrite (Permutation_app_comm _ ((static_frame <$> _) ++ _)).
  rewrite <- (assoc_L (++)). do 2 apply Permutation_app_head.
  destruct (has_xyts cfg); [|reflexivity].
  rewrite bind_cons. change ([] ≫= yield cfg) with (@nil msg). rewrite app_nil_r.
  change (yield cfg (Entry T_load_xyts))
    with (seq 0 (nproc0 cfg) ≫= (λ i, shard_frames cfg (Shard i (nproc0 cfg)))).
  unfold shard_frames. rewrite <- (ready_frames_partition cfg HW).
  generalize (seq 0 (nproc0 cfg)). intros l.
  induction l as [|i l IH]; [done|]. by rewrite !bind_cons, fmap_app, IH.
Qed.

Lemma frames_in_app l1 l2 : frames_in (l1 ++ l2) = frames_in l1 ++ frames_in l2.
Proof. apply omap_app. Qed.

Lemma frames_in_static (l : list Z) :
  frames_in (static_frame <$> l) = (λ i, Frame (Some i) None) <$> l.
Proof. induction l as [|i l IH]; [done|]. simpl. f_equal. exact IH. Qed.

Lemma frames_in_dyn cfg l :
  frames_in (dyn_frame cfg <$> l)
  = (λ i, Frame (Some (frames cfg + Z.of_nat i)) (Some i)) <$> l.
Proof. induction l as [|i l IH]; [done|]. simpl. f_equal. exact IH. Qed.

Lemma xrange_elem n i : i ∈ xrange n ↔ 0 ≤ i < n.
Proof.
  unfold xrange. rewrite list_elem_of_fmap. split.
  - intros (j & -> & Hj%elem_of_seq). lia.
  - intros Hi. exists (Z.to_nat i). split; [lia|]. apply elem_of_seq. lia.
Qed.

Lemma xrange_NoDup n : NoDup (xrange n).
Proof.
  unfold xrange. apply NoDup_fmap_2; [intros ???; lia|apply NoDup_seq].
Qed.

(** The job dictionaries of a run differ from one another, whatever the
    sign of the frame counts: those queued before the loop have no
    [sim_time], the others have their own. *)
Lemma expected_frames_NoDup cfg : NoDup (frames_in (expected_frames cfg)).
Proof.
  unfold expected_frames. destruct (animate cfg); [|apply NoDup_singleton].
  rewrite !frames_in_app, !frames_in_static, <- list_fmap_compose.
  assert (NoDup (if has_xyts cfg
                 then frames_in (dyn_frame cfg <$>
                        filter (λ i, xpos cfg i < nt cfg)%nat (seq 0 (frames_sr cfg)))
                 else frames_in [])
          ∧ ∀ j, j ∈ (if has_xyts cfg
                      then frames_in (dyn_frame cfg <$>
                             filter (λ i, xpos cfg i < nt cfg)%nat
                                    (seq 0 (frames_sr cfg)))
                      else frames_in []) → sim_time j ≠ None) as [Hnd Hsim].
  { destruct (has_xyts cfg).
    - rewrite frames_in_dyn. split.
      + apply NoDup_fmap_2; [by intros ?? [= _ ?]|]. apply NoDup_filter, NoDup_seq.
      + by intros j (i & -> & _)%list_elem_of_fmap.
    - split; [apply NoDup_nil_2|]. by intros j ?%elem_of_nil. }
  replace (frames_in (if has_xyts cfg
                      then dyn_frame cfg <$>
                             filter (λ i, xpos cfg i < nt cfg)%nat
                                    (seq 0 (frames_sr cfg))
                      else []))
    with (if has_xyts cfg
          then frames_in (dyn_frame cfg <$>
                 filter (λ i, xpos cfg i < nt cfg)%nat (seq 0 (frames_sr cfg)))
          else frames_in []) by (by destruct (has_xyts cfg)).
  apply NoDup_app. split_and!.
  - apply NoDup_fmap_2; [by intros ?? [= ?]|apply xrange_NoDup].
  - intros j (i & -> & Hi%xrange_elem)%list_elem_of_fmap
      [(i' & [= ->] & Hi'%xrange_elem)%list_elem_of_fmap|Hin]%elem_of_app.
    + lia.
    + by apply Hsim in Hin.
  - apply NoDup_app. split_and!; [|
      |done].
    + apply NoDup_fmap_2; [|apply xrange_NoDup]. intros ?? [= ?]. lia.
    + intros j (i & -> & _)%list_elem_of_fmap Hin. by apply Hsim in Hin.
Qed.

(** The indices [i] that [timeslice] works under. *)
Lemma expected_indices cfg :
  swd_index <$> frames_in (expected_frames cfg)
  = if animate cfg then
      xrange (frames0 cfg)
      ++ ((λ i, frames0 cfg + i) <$> xrange (t_frames cfg))
      ++ (if has_xyts cfg then
            (λ i, frames cfg + Z.of_nat i)
              <$> filter (λ i, xpos cfg i < nt cfg)%nat (seq 0 (frames_sr cfg))
          else [])
    else [0].
Proof.
  unfold expected_frames. destruct (animate cfg); [|done].
  rewrite !frames_in_app, !fmap_app, !frames_in_static, <- !list_fmap_compose.
  f_equal; [by rewrite list_fmap_id|]. f_equal.
  destruct (has_xyts cfg); [|done].
  by rewrite frames_in_dyn, <- list_fmap_compose.
Qed.

Lemma expected_indices_NoDup cfg :
  0 ≤ t_frames cfg → NoDup (swd_index <$> frames_in (expected_frames cfg)).
Proof.
  intros Ht. rewrite expected_indices.
  destruct (animate cfg); [|apply NoDup_singleton].
  assert (∀ i, i ∈ (if has_xyts cfg
                    then (λ i, frames cfg + Z.of_nat i)
                           <$> filter (λ i, xpos cfg i < nt cfg)%nat
                                      (seq 0 (frames_sr cfg))
                    else []) → frames cfg ≤ i) as Hdyn.
  { intros i Hin. destruct (has_xyts cfg); [|by apply elem_of_nil in Hin].
    apply list_elem_of_fmap in Hin as (j & -> & _). lia. }
  unfold frames in Hdyn.
  apply NoDup_app. split_and!.
  - apply xrange_NoDup.
  - intros i Hi%xrange_elem
      [(j & -> & Hj%xrange_elem)%list_elem_of_fmap|Hin%Hdyn]%elem_of_app; lia.
  - apply NoDup_app. split_and!.
    + apply NoDup_fmap_2; [intros ???; lia|apply xrange_NoDup].
    + intros i (j & -> & Hj%xrange_elem)%list_elem_of_fmap Hin%Hdyn. lia.
    + destruct (has_xyts cfg); [|apply NoDup_nil_2].
      apply NoDup_fmap_2; [intros ???; unfold frames in *; lia|].
      apply NoDup_filter, NoDup_seq.
Qed.

Lemma halted_slots cfg s :
  inv cfg s → nproc (coord s) = 0%nat →
  in_progress (coord s) = replicate (nproc0 cfg) StopIteration.
Proof.
  intros H Hz. apply list_eq. intros w.
  destruct (decide (w < nproc0 cfg)%nat) as [Hw|Hw].
  - rewrite lookup_replicate_2 by done.
    destruct (lookup_lt_is_Some_2 (slaves s) w) as [sl Hsl].
    { by rewrite (inv_slaves_len _ _ H). }
    apply (inv_stopped _ _ H _ _ Hsl).
    pose proof (halted_none_alive cfg s w H Hz) as Ha. unfold alive in Ha.
    by rewrite Hsl in Ha.
  - rewrite !lookup_ge_None_2; [done|rewrite length_replicate; lia|].
    rewrite (inv_slots_len _ _ H). lia.
Qed.

Lemma frames_in_filter l :
  frames_in (filter (λ y, is_frame y = true) l) = frames_in l.
Proof.
  induction l as [|x l IH]; [done|]. rewrite filter_cons.
  destruct x as [| |[|k|j|id c]]; simpl; by rewrite ?IH.
Qed.

Lemma frames_in_yield cfg l :
  frames_in (l ≫= yield cfg) ≡ₚ frames_in l ++ frames_in (l ≫= desc cfg).
Proof.
  induction l as [|x l IH]; [done|].
  rewrite !bind_cons, !frames_in_app, IH. unfold yield. rewrite frames_in_app.
  change (x :: l) with ([x] ++ l). rewrite frames_in_app.
  assert (frames_in (if is_frame x then [x] else []) = frames_in [x]) as ->
    by (by destruct x as [| |[|k|j|id c]]).
  rewrite <- !(assoc_L (++)). apply Permutation_app_head.
  rewrite !(assoc_L (++)). apply Permutation_app_tail. apply Permutation_app_comm.
Qed.

Lemma frames_in_Permutation l1 l2 : l1 ≡ₚ l2 → frames_in l1 ≡ₚ frames_in l2.
Proof. apply omap_Permutation. Qed.

(** Where the frames of a run are at any time: sent, waiting, or yet to be
    queued by an entry that waits or is in flight. *)
Lemma frames_accounted cfg s :
  reachable cfg s → (0 < nproc0 cfg)%nat →
  frames_in (replies (coord s)) ++ frames_in (msg_list (coord s))
    ++ frames_in ((msg_list (coord s) ≫= desc cfg)
                  ++ (in_progress (coord s) ≫= desc cfg))
  ≡ₚ frames_in (expected_frames cfg).
Proof.
  intros Hr HW.
  etrans; [|apply frames_in_Permutation, (all_frames_expected cfg HW)].
  etrans; [|apply frames_in_Permutation, (reachable_frames _ _ Hr)].
  rewrite !frames_in_app, frames_in_filter, frames_in_yield.
  by rewrite <- !(assoc_L (++)).
Qed.

(** X5: in a run that has ended, every frame was sent exactly once: the
    [timeslice] replies are, up to their order, the frames queued before the
    loop together with the dynamic frames whose timeslice index is below
    [xfile.nt], and nothing is sent twice. *)
Theorem X5_every_frame_once cfg s :
  reachable cfg s → (0 < nproc0 cfg)%nat → nproc (coord s) = 0%nat →
  filter (λ y, is_frame y = true) (replies (coord s)) ≡ₚ expected_frames cfg
  ∧ NoDup (frames_in (replies (coord s))).
Proof.
  intros Hr HW Hz. pose proof (reachable_inv _ _ Hr) as H.
  pose proof (reachable_frames _ _ Hr) as Hfr.
  destruct (inv_drain _ _ H) as [Hnil _]; [lia|].
  rewrite Hnil, (halted_slots _ _ H Hz) in Hfr. simpl in Hfr.
  rewrite (bind_replicate_nil (desc cfg)) in Hfr by done.
  rewrite app_nil_r, (all_frames_expected cfg HW) in Hfr.
  split; [done|].
  rewrite <- frames_in_filter, (frames_in_Permutation _ _ Hfr).
  apply expected_frames_NoDup.
Qed.

Lemma X5_witness :
  let s := exec movie_cfg (round_robin 2) 15 in
  filter (λ y, is_frame y = true) (replies (coord s)) ≡ₚ expected_frames movie_cfg
  ∧ NoDup (frames_in (replies (coord s))).
Proof.
  apply (X5_every_frame_once movie_cfg _
           (exec_reachable movie_cfg (round_robin 2) 15));
    [simpl; lia|vm_compute; reflexivity].
Defined.

(** X6: when [meta['t_frames']] is not negative, at no time of a run do two
    [timeslice] entries, sent or waiting, carry the same index [i]
    ([job['seq']], or 0 for the still image): working directories
    ['_%.4d_' % i] and image names never clash.  (A negative
    [meta['t_frames']] makes [frames] smaller than the number of frames
    queued before the loop, and the indices [frames + i] of the dynamic
    range then run into theirs.) *)
Theorem X6_frame_indices_distinct cfg s :
  0 ≤ t_frames cfg → reachable cfg s → (0 < nproc0 cfg)%nat →
  NoDup (swd_index <$> frames_in (replies (coord s) ++ msg_list (coord s))).
Proof.
  intros Ht Hr HW. pose proof (expected_indices_NoDup cfg Ht) as Hnd.
  rewrite <- (frames_accounted _ _ Hr HW) in Hnd.
  rewrite (assoc_L (++)), fmap_app in Hnd. apply NoDup_app in Hnd as [Hnd _].
  by rewrite frames_in_app.
Qed.

Lemma X6_witness :
  NoDup (swd_index <$> frames_in
           (replies (coord (exec movie_cfg (round_robin 2) 9))
            ++ msg_list (coord (exec movie_cfg (round_robin 2) 9)))).
Proof.
  apply (X6_frame_indices_distinct movie_cfg
           (exec movie_cfg (round_robin 2) 9));
    [simpl; lia|apply exec_reachable|simpl; lia].
Defined.
(** ** Dependencies *)

Lemma py_range_spec lo hi step x :
  (0 < step)%nat → x ∈ py_range lo hi step ↔ in_range lo hi step x = true.
Proof.
  intros Hs. unfold py_range, in_range.
  rewrite list_elem_of_fmap, !andb_true_iff, !bool_decide_eq_true. split.
  - intros (j & -> & Hj%elem_of_seq).
    pose proof (Nat.Div0.mul_div_le (hi - lo + step - 1) step) as Hd.
    assert (j * step < hi - lo)%nat by nia.
    split_and!; [lia|lia|].
    replace (lo + j * step - lo)%nat with (j * step)%nat by lia.
    apply Nat.Div0.mod_mul.
  - intros [[Hle Hhi] Hmod]. apply Nat.Lcm0.mod_divide in Hmod as [a Ha].
    exists a. split; [lia|]. apply elem_of_seq. split; [lia|]. simpl.
    apply (Nat.lt_le_trans _ (S a)); [lia|].
    apply Nat.div_le_lower_bound; [lia|]. nia.
Qed.

Lemma seen_finished_mono m m' w x y :
  comm m' = comm m ++ [EvSend w x] → seen_finished m y → seen_finished m' y.
Proof.
  intros Hcm (w' & pre & z & post & Hs). exists w', pre, z.
  rewrite (sent_to_snoc w' _ _ _ _ Hcm), Hs.
  eexists. by rewrite <- app_assoc.
Qed.

Lemma gated_mono cfg m m' w x y :
  comm m' = comm m ++ [EvSend w x] → gated cfg m y → gated cfg m' y.
Proof.
  intros Hcm. destruct y as [| |[|k|j|id c]]; simpl; try done.
  - by apply seen_finished_mono with w x.
  - intros Hg i Hi. destruct (Hg i Hi) as (Hq & k & Hk & Hx).
    split; [done|]. exists k. split; [|done]. by apply seen_finished_mono with m w x.
Qed.

(** The entry in the slot of the slave that is served has been seen
    finished once the reply is sent. *)
Lemma finished_seen cfg s w finished m' x :
  reachable cfg s → in_progress (coord s) !! w = Some finished →
  finished ≠ PyNone →
  comm m' = comm (coord s) ++ [EvSend w x] →
  seen_finished m' finished.
Proof.
  intros Hr Hw Hne Hcm. pose proof (reachable_inv _ _ Hr) as H.
  assert (w < nproc0 cfg)%nat as Hlt.
  { rewrite <- (inv_slots_len _ _ H). by eapply lookup_lt_Some. }
  pose proof (slot_last_sent _ _ _ Hr Hlt) as Hlast. rewrite Hw in Hlast.
  destruct (last (sent_to w (coord s))) as [z|] eqn:El; simpl in Hlast;
    [|congruence].
  apply last_Some in El as [pre El]. injection Hlast as ->.
  exists w, pre, x, []. rewrite (sent_to_snoc w _ _ _ _ Hcm), El.
  rewrite decide_True by done. by rewrite <- app_assoc.
Qed.

Lemma history_grows cfg s w d s' :
  inv cfg s → enabled s w = true → request cfg w d s = Ok s' →
  ∃ finished x,
    in_progress (coord s) !! w = Some finished
    ∧ comm (coord s') = comm (coord s) ++ [EvSend w x]
    ∧ history (coord s')
      = history (coord s)
        ++ match finished with
           | Entry T_load_xyts => shards (nproc0 cfg)
           | Entry (T_load_xyts_ts k) => shard_frames cfg k
           | _ => []
           end.
Proof.
  intros H Hen Hreq.
  destruct (enabled_alive _ _ Hen) as (Hn & _).
  destruct (history_step _ _ _ _ _ H Hen Hreq) as (f & new & Hf & _ & _ & Hh).
  destruct (pass_spec cfg s w d H Hen)
    as [(_ & Heq & _)
       |(finished & sl & m1 & new' & x & q & n' & Hw & Hstop & Hsl & Hl & Hres
         & Hml & Hnew & Hdeps & Hwt & Hnogen & Hcase & Heq)];
    [by rewrite Heq in Hreq|].
  rewrite Heq in Hreq. injection Hreq as <-.
  exists finished, x. split_and!; [done..|].
  pose proof (resolve_new _ _ _ _ _ H Hn Hw Hres) as Hml'.
  rewrite Hml in Hml'. apply app_inv_head in Hml'. subst new'.
  unfold history. rewrite (replies_snoc (coord s) _ w x) by done. simpl.
  rewrite filter_app, <- !app_assoc. f_equal.
  assert (Forall (job_ok cfg) (msg_list m1)) as Hq1.
  { rewrite Hml. apply Forall_app. split; [apply (inv_queue _ _ H)|done]. }
  destruct Hcase as [[E ->]|[(E & Hz & -> & -> & ->)|(E & Hz & -> & -> & ->)]].
  - rewrite <- Hml, E. rewrite E in Hq1. apply Forall_cons in Hq1 as [Hx _].
    rewrite filter_cons, filter_nil.
    by rewrite decide_True by (by eapply job_ok_not_sentinel).
  - by rewrite <- Hml, E.
  - by rewrite <- Hml, E.
Qed.

Lemma reachable_gated cfg s :
  reachable cfg s → Forall (gated cfg (coord s)) (history (coord s)).
Proof.
  induction 1 as [|s w d s' Hr IH Hen Hreq].
  - unfold history. simpl. unfold initial_msg_list.
    destruct (animate cfg); [|by repeat constructor].
    rewrite !Forall_app, !Forall_fmap. split_and!.
    + destruct (has_xyts cfg); by repeat constructor.
    + by apply Forall_forall.
    + by apply Forall_forall.
  - pose proof (reachable_inv _ _ Hr) as H.
    destruct (history_grows _ _ _ _ _ H Hen Hreq) as (finished & x & Hw & Hcm & ->).
    apply Forall_app. split.
    { eapply Forall_impl; [exact IH|]. intros y. by apply gated_mono with w x. }
    pose proof (Forall_lookup_1 _ _ _ _ (inv_slots _ _ H) Hw) as Hok.
    destruct finished as [| |[|k|j|id c]]; try by constructor.
    + unfold shards. rewrite Forall_fmap. apply Forall_forall. intros i _. simpl.
      by eapply finished_seen.
    + destruct Hok as [?|[?|[Hinc Hst]]]; [done..|].
      unfold shard_frames. rewrite Forall_fmap. apply Forall_forall.
      intros i [Hin _]%list_elem_of_filter. simpl. intros ? [= <-].
      split; [done|]. exists k. split; [by eapply finished_seen|].
      apply py_range_spec; [lia|]. by rewrite Hinc.
Qed.

(** X8: dependencies are respected.  Whatever was ever queued came after
    what it depends on was seen finished: a [load_xyts_ts] entry after some
    slave was sent [load_xyts] and asked again; a frame [i] of the dynamic
    range after some slave was sent a [load_xyts_ts] entry whose own loop
    [xrange(job['start'], xfile.nt, job['inc'])] contains the timeslice of
    the frame, and asked again. *)
Theorem X8_dependencies_respected cfg s x :
  reachable cfg s → x ∈ history (coord s) →
  (∀ k, x = Entry (T_load_xyts_ts k) →
     seen_finished (coord s) (Entry T_load_xyts))
  ∧ (∀ j i, x = Entry (T_timeslice j) → sim_time j = Some i →
       seq_ j = Some (frames cfg + Z.of_nat i)
       ∧ ∃ k, seen_finished (coord s) (Entry (T_load_xyts_ts k))
              ∧ xpos cfg i ∈ py_range (start k) (nt cfg) (inc k)).
Proof.
  intros Hr Hx.
  pose proof (proj1 (Forall_forall _ _) (reachable_gated _ _ Hr) x Hx) as Hg.
  split.
  - by intros k ->.
  - intros j i -> Hi. by apply Hg.
Qed.

Lemma X8_witness :
  let s := exec movie_cfg (round_robin 2) 9 in
  let x := Entry (T_timeslice (Frame (Some 5) (Some 1%nat))) in
  x ∈ history (coord s)
  ∧ (∀ k, x = Entry (T_load_xyts_ts k) →
       seen_finished (coord s) (Entry T_load_xyts))
  ∧ (∀ j i, x = Entry (T_timeslice j) → sim_time j = Some i →
       seq_ j = Some (frames movie_cfg + Z.of_nat i)
       ∧ ∃ k, seen_finished (coord s) (Entry (T_load_xyts_ts k))
              ∧ xpos movie_cfg i ∈ py_range (start k) (nt movie_cfg) (inc k)).
Proof.
  assert (Entry (T_timeslice (Frame (Some 5) (Some 1%nat)))
          ∈ history (coord (exec movie_cfg (round_robin 2) 9))) as Hin.
  { vm_compute. repeat constructor. }
  split; [exact Hin|].
  exact (X8_dependencies_respected movie_cfg _ _
           (exec_reachable movie_cfg (round_robin 2) 9) Hin).
Defined.
(** ** The image sequence after the loop *)

Section assemble_facts.
Context {A : Type}.
Implicit Types fs : gmap Z A.

Lemma xrange_down_S (n : nat) :
  xrange_down (Z.of_nat (S n)) = Z.of_nat n :: xrange_down (Z.of_nat n).
Proof.
  unfold xrange_down, xrange. rewrite !Nat2Z.id, seq_S, fmap_app.
  simpl. by rewrite reverse_snoc.
Qed.

Lemma for_each_cons i l (body : Z → gmap Z A → option (gmap Z A)) fs :
  for_each (i :: l) body fs = body i fs ≫= for_each l body.
Proof. done. Qed.

(** A loop of copies of one image. *)
Lemma for_each_copy src (g : Z → Z) l fs v :
  fs !! src = Some v → (∀ i, i ∈ l → g i ≠ src) →
  ∃ fs', for_each l (λ i, copy src (g i)) fs = Some fs'
         ∧ ∀ k, (k ∈ g <$> l → fs' !! k = Some v)
                ∧ (k ∉ g <$> l → fs' !! k = fs !! k).
Proof.
  revert fs. induction l as [|i l IH]; intros fs Hv Hne.
  - exists fs. split; [done|]. intros k. split; [|done].
    by intros ?%elem_of_nil.
  - assert (g i ≠ src) as Hi by (apply Hne; left).
    assert (copy src (g i) fs = Some (<[g i := v]> fs)) as Hc.
    { unfold copy. rewrite Hv. simpl. by rewrite decide_False. }
    rewrite for_each_cons, Hc. simpl.
    destruct (IH (<[g i := v]> fs)) as (fs' & Hfe & Hk).
    { by rewrite lookup_insert_ne. }
    { intros j Hj. apply Hne. by right. }
    exists fs'. split; [done|]. intros k. destruct (Hk k) as [Hin Hout].
    rewrite ?fmap_cons, !elem_of_cons.
    destruct (decide (k ∈ g <$> l)) as [Hl|Hl].
    + split; [by auto|]. intros Hn. destruct Hn. by right.
    + rewrite (Hout Hl). split.
      * intros [->|?]; [|done]. apply lookup_insert_eq.
      * intros Hn. rewrite lookup_insert_ne; [done|]. intros <-. apply Hn. by left.
Qed.

Lemma copies_spec src (g : Z → Z) off n fs v :
  (∀ i, g i = off + i) →
  fs !! src = Some v → (∀ i, 0 ≤ i < n → off + i ≠ src) →
  ∃ fs', for_each (xrange n) (λ i, copy src (g i)) fs = Some fs'
         ∧ ∀ k, fs' !! k = if decide (off ≤ k < off + n) then Some v else fs !! k.
Proof.
  intros Hg Hv Hne.
  destruct (for_each_copy src g (xrange n) fs v Hv) as (fs' & Hfe & Hk).
  { intros i Hi%xrange_elem. rewrite Hg. by apply Hne. }
  exists fs'. split; [done|]. intros k. destruct (Hk k) as [Hin Hout].
  assert (k ∈ g <$> xrange n ↔ off ≤ k < off + n) as Hiff.
  { rewrite list_elem_of_fmap. split.
    - intros (i & -> & Hi%xrange_elem). rewrite Hg. lia.
    - intros Hr. exists (k - off). rewrite Hg, xrange_elem. lia. }
  destruct (decide (off ≤ k < off + n)) as [Hr|Hr].
  - by apply Hin, Hiff.
  - apply Hout. by rewrite Hiff.
Qed.

(** A loop of copies leaves alone what it does not write. *)
Lemma copies_keep src (g : Z → Z) l fs fs' k :
  for_each l (λ i, copy src (g i)) fs = Some fs' →
  (∀ i, i ∈ l → g i ≠ k) → fs' !! k = fs !! k.
Proof.
  revert fs. induction l as [|i l IH]; intros fs Hfe Hne.
  - by injection Hfe as <-.
  - rewrite for_each_cons in Hfe.
    destruct (copy src (g i) fs) as [f1|] eqn:Hc; [|done]. simpl in Hfe.
    unfold copy in Hc. destruct (fs !! src) as [v|]; [|done]. simpl in Hc.
    destruct (decide (src = g i)); [done|]. injection Hc as <-.
    rewrite (IH _ Hfe) by (intros j Hj; apply Hne; by right).
    apply lookup_insert_ne, Hne. left.
Qed.

(** The shift, from the last image down. *)
Lemma moves_spec d (n : nat) fs :
  0 ≤ d → (∀ i, 0 ≤ i < Z.of_nat n → is_Some (fs !! i)) →
  ∃ fs', for_each (xrange_down (Z.of_nat n)) (λ i, move i (d + i)) fs = Some fs'
         ∧ ∀ k, fs' !! k = if decide (d ≤ k < d + Z.of_nat n) then fs !! (k - d)
                           else if decide (0 ≤ k < Z.of_nat n) then None
                           else fs !! k.
Proof.
  intros Hd. revert fs. induction n as [|n IH]; intros fs Hall.
  - exists fs. split; [done|]. intros k.
    rewrite decide_False by lia. by rewrite decide_False by lia.
  - destruct (Hall (Z.of_nat n)) as [v Hv]; [lia|].
    assert (move (Z.of_nat n) (d + Z.of_nat n) fs
            = Some (<[d + Z.of_nat n := v]> (delete (Z.of_nat n) fs)))
      as Hm by (unfold move; by rewrite Hv).
    rewrite xrange_down_S, for_each_cons, Hm. simpl.
    destruct (IH (<[d + Z.of_nat n := v]> (delete (Z.of_nat n) fs)))
      as (fs' & Hfe & Hk).
    { intros i Hi. rewrite lookup_insert, lookup_delete.
      rewrite decide_False by lia. rewrite decide_False by lia. apply Hall. lia. }
    exists fs'. split; [done|]. intros k. rewrite Hk.
    rewrite !lookup_insert, !lookup_delete.
    repeat case_decide; try lia; try done.
    by replace (k - d) with (Z.of_nat n) by lia.
Qed.

Lemma moves_fail d (n : nat) fs i :
  0 ≤ d → 0 ≤ i < Z.of_nat n → fs !! i = None →
  for_each (xrange_down (Z.of_nat n)) (λ i, move i (d + i)) fs = None.
Proof.
  intros Hd. revert fs. induction n as [|n IH]; intros fs Hi Hnone; [lia|].
  destruct (move (Z.of_nat n) (d + Z.of_nat n) fs) as [f1|] eqn:Hm;
    rewrite xrange_down_S, for_each_cons, Hm; [|done]. simpl.
  unfold move in Hm. destruct (fs !! Z.of_nat n) as [v|] eqn:Hv; [|done].
  injection Hm as <-.
  assert (i ≠ Z.of_nat n) by congruence.
  apply IH; [lia|]. rewrite lookup_insert, lookup_delete.
  rewrite decide_False by lia. by rewrite decide_False by lia.
Qed.

(** X9: the sequence handed to [gmt.make_movie].  When the run animates,
    [frames_start] is not negative and every image [0 .. frames - 1] exists
    ([frames] counting the dynamic range too), the three loops after the
    dispatch loop do not raise and leave: [frames_start] copies of the first
    image, then the images in their order, then [frames_end] copies of the
    last one; no other name is touched. *)
Theorem X9_sequence_layout cfg frames_start frames_end fs :
  animate cfg = true →
  0 < frames cfg + Z.of_nat (frames_sr cfg) → 0 ≤ frames_start →
  (∀ i, 0 ≤ i < frames cfg + Z.of_nat (frames_sr cfg) → is_Some (fs !! i)) →
  ∃ fs',
    after_loop cfg frames_start frames_end fs = Some fs'
    ∧ ∀ k, fs' !! k
           = let n := frames cfg + Z.of_nat (frames_sr cfg) in
             if decide (0 ≤ k < frames_start) then fs !! 0
             else if decide (frames_start ≤ k < frames_start + n)
                  then fs !! (k - frames_start)
             else if decide (frames_start + n ≤ k < frames_start + n + frames_end)
                  then fs !! (n - 1)
             else fs !! k.
Proof.
  intros Ha Hpos Hst Hall. unfold after_loop, assemble. rewrite Ha.
  set (n := frames cfg + Z.of_nat (frames_sr cfg)) in *.
  destruct (Hall (n - 1)) as [vl Hvl]; [lia|].
  destruct (Hall 0) as [vf Hvf]; [lia|].
  destruct (copies_spec (n - 1) (λ i, n + frames_start + i)
              (n + frames_start) frames_end fs vl)
    as (f1 & -> & H1); [done|done|lia|].
  simpl.
  destruct (moves_spec frames_start (Z.to_nat n) f1 Hst) as (f2 & Hf2 & H2).
  { intros i Hi. rewrite H1, decide_False by lia. apply Hall. lia. }
  rewrite Z2Nat.id in Hf2, H2 by lia. rewrite Hf2. simpl.
  destruct (copies_spec frames_start (λ i, i) 0 frames_start f2 vf)
    as (f3 & -> & H3); [done| |lia|].
  { rewrite H2, decide_True by lia. rewrite H1, decide_False by lia.
    by replace (frames_start - frames_start) with 0 by lia. }
  exists f3. split; [done|]. intros k. simpl. rewrite H3, H2, !H1.
  repeat case_decide; try lia; done.
Qed.

(** X10: a hole in the sequence makes the script raise.  The statements
    after the dispatch loop complete only when the run animates and an
    image exists for every index below [frames] (static and dynamic
    range): the still-image run stops at [frames += frames_sr], and the
    shift stops at the first missing image. *)
Theorem X10_missing_image_raises cfg frames_start frames_end fs fs' :
  0 ≤ frames_start →
  after_loop cfg frames_start frames_end fs = Some fs' →
  animate cfg = true
  ∧ ∀ i, 0 ≤ i < frames cfg + Z.of_nat (frames_sr cfg) → is_Some (fs !! i).
Proof.
  intros Hst Hal. unfold after_loop in Hal.
  destruct (animate cfg); [|done]. split; [done|]. intros i Hi.
  unfold assemble in Hal.
  destruct (for_each (xrange frames_end) _ fs) as [f1|] eqn:E1; [|done].
  simpl in Hal.
  destruct (for_each (xrange_down _) _ f1) as [f2|] eqn:E2; [|done].
  destruct (fs !! i) as [v|] eqn:Ei; [done|].
  rewrite <- (Z2Nat.id (frames cfg + Z.of_nat (frames_sr cfg))) in E2 by lia.
  rewrite (moves_fail frames_start _ f1 i) in E2; [done|done|lia|].
  rewrite (copies_keep _ _ _ _ _ _ E1); [done|].
  intros j Hj%xrange_elem. lia.
Qed.

End assemble_facts.

Lemma X9_witness :
  let fs : gmap Z nat := list_to_map ((λ i, (Z.of_nat i, i)) <$> seq 0 10) in
  ∃ fs',
    after_loop movie_cfg 2 3 fs = Some fs'
    ∧ ∀ k, fs' !! k
           = let n := frames movie_cfg + Z.of_nat (frames_sr movie_cfg) in
             if decide (0 ≤ k < 2) then fs !! 0
             else if decide (2 ≤ k < 2 + n) then fs !! (k - 2)
             else if decide (2 + n ≤ k < 2 + n + 3) then fs !! (n - 1)
             else fs !! k.
Proof.
  apply (X9_sequence_layout movie_cfg 2 3);
    [reflexivity|vm_compute; reflexivity|lia|].
  intros i Hi. change (frames movie_cfg + Z.of_nat (frames_sr movie_cfg)) with 10 in Hi.
  assert (i = 0 ∨ i = 1 ∨ i = 2 ∨ i = 3 ∨ i = 4 ∨ i = 5 ∨ i = 6 ∨ i = 7
          ∨ i = 8 ∨ i = 9) as Hc by lia.
  repeat destruct Hc as [->|Hc]; try subst i; by eexists.
Defined.

Lemma X10_witness :
  let fs : gmap Z nat := list_to_map ((λ i, (Z.of_nat i, i)) <$> seq 0 10) in
  animate movie_cfg = true
  ∧ ∀ i, 0 ≤ i < frames movie_cfg + Z.of_nat (frames_sr movie_cfg) →
         is_Some (fs !! i).
Proof.
  eapply (X10_missing_image_raises movie_cfg 2 3); [lia|].
  vm_compute. reflexivity.
Defined.
(** ** What a finished run has rendered *)

Lemma halted_frames cfg s :
  reachable cfg s → (0 < nproc0 cfg)%nat → nproc (coord s) = 0%nat →
  filter (λ y, is_frame y = true) (replies (coord s)) ≡ₚ expected_frames cfg.
Proof.
  intros Hr HW Hz. pose proof (reachable_inv _ _ Hr) as H.
  pose proof (reachable_frames _ _ Hr) as Hfr.
  destruct (inv_drain _ _ H) as [Hnil _]; [lia|].
  rewrite Hnil, (halted_slots _ _ H Hz) in Hfr. simpl in Hfr.
  rewrite (bind_replicate_nil (desc cfg)) in Hfr by done.
  by rewrite app_nil_r, (all_frames_expected cfg HW) in Hfr.
Qed.

Lemma halted_indices cfg s :
  reachable cfg s → (0 < nproc0 cfg)%nat → nproc (coord s) = 0%nat →
  swd_index <$> frames_in (replies (coord s))
  ≡ₚ swd_index <$> frames_in (expected_frames cfg).
Proof.
  intros Hr HW Hz. apply fmap_Permutation.
  rewrite <- (frames_in_filter (replies (coord s))).
  by apply frames_in_Permutation, halted_frames.
Qed.

Lemma expected_index cfg i :
  i ∈ swd_index <$> frames_in (expected_frames cfg)
  ↔ if animate cfg then
      0 ≤ i < frames0 cfg
      ∨ frames0 cfg ≤ i < frames0 cfg + t_frames cfg
      ∨ (has_xyts cfg = true
         ∧ ∃ q, i = frames cfg + Z.of_nat q ∧ (q < frames_sr cfg)%nat
                ∧ (xpos cfg q < nt cfg)%nat)
    else i = 0.
Proof.
  rewrite expected_indices. destruct (animate cfg); [|apply list_elem_of_singleton].
  rewrite !elem_of_app, xrange_elem.
  assert (i ∈ (λ j, frames0 cfg + j) <$> xrange (t_frames cfg)
          ↔ frames0 cfg ≤ i < frames0 cfg + t_frames cfg) as ->.
  { rewrite list_elem_of_fmap. split.
    - intros (j & -> & Hj%xrange_elem). lia.
    - intros Hi. exists (i - frames0 cfg). rewrite xrange_elem. lia. }
  do 2 apply or_iff_compat_l.
  destruct (has_xyts cfg).
  - rewrite list_elem_of_fmap. split.
    + intros (q & -> & [Hx Hq%elem_of_seq]%list_elem_of_filter).
      split; [done|]. exists q. split_and!; [done|lia|done].
    + intros (_ & q & -> & Hq & Hx). exists q. split; [done|].
      apply list_elem_of_filter. split; [done|]. apply elem_of_seq. lia.
  - split; [by intros ?%elem_of_nil|]. by intros [? _].
Qed.

(** X11: which images a finished run has rendered.  [timeslice] was called
    for the still image only, or, when animating, for the indices
    [xrange(int(args.time * args.framerate))], for as many again as
    [meta['t_frames']] says, and for those indices [frames + q] of the
    dynamic range whose timeslice exists in the xyts file.  So, the two
    frame counts not being negative, the range [xrange(frames + frames_sr)]
    that the statements after the loop shift is covered exactly when every
    dynamic frame has an xyts file and a timeslice in it. *)
Theorem X11_rendered_indices cfg s :
  reachable cfg s → (0 < nproc0 cfg)%nat → nproc (coord s) = 0%nat →
  (∀ i, i ∈ swd_index <$> frames_in (replies (coord s))
        ↔ if animate cfg then
            0 ≤ i < frames0 cfg
            ∨ frames0 cfg ≤ i < frames0 cfg + t_frames cfg
            ∨ (has_xyts cfg = true
               ∧ ∃ q, i = frames cfg + Z.of_nat q ∧ (q < frames_sr cfg)%nat
                      ∧ (xpos cfg q < nt cfg)%nat)
          else i = 0)
  ∧ (animate cfg = true → 0 ≤ frames0 cfg → 0 ≤ t_frames cfg →
     (∀ i, 0 ≤ i < frames cfg + Z.of_nat (frames_sr cfg) →
           i ∈ swd_index <$> frames_in (replies (coord s)))
     ↔ (∀ q, (q < frames_sr cfg)%nat →
             has_xyts cfg = true ∧ (xpos cfg q < nt cfg)%nat)).
Proof.
  intros Hr HW Hz.
  assert (∀ i, i ∈ swd_index <$> frames_in (replies (coord s))
               ↔ i ∈ swd_index <$> frames_in (expected_frames cfg)) as Hin.
  { intros i. by rewrite (halted_indices _ _ Hr HW Hz). }
  split.
  - intros i. rewrite Hin. apply expected_index.
  - intros Ha Hf0 Ht. unfold frames. split.
    + intros Hall q Hq.
      assert (0 ≤ frames0 cfg + t_frames cfg + Z.of_nat q
              < frames0 cfg + t_frames cfg + Z.of_nat (frames_sr cfg)) as Hlt by lia.
      apply Hall, Hin, expected_index in Hlt. rewrite Ha in Hlt.
      unfold frames in Hlt.
      destruct Hlt as [?|[?|(Hx & q' & Heq & _ & Hnt)]]; [lia..|].
      assert (q' = q) as -> by lia. done.
    + intros Hall i Hi. apply Hin, expected_index. rewrite Ha.
      destruct (decide (i < frames0 cfg)) as [?|Hge]; [left; lia|]. right.
      destruct (decide (i < frames0 cfg + t_frames cfg)) as [?|Hge'];
        [left; lia|]. right.
      destruct (Hall (Z.to_nat (i - (frames0 cfg + t_frames cfg))))
        as [Hx Hnt]; [lia|].
      split; [done|]. exists (Z.to_nat (i - (frames0 cfg + t_frames cfg))).
      unfold frames. split_and!; [lia|lia|done].
Qed.

Lemma X11_witness :
  let s := exec movie_cfg (round_robin 2) 15 in
  (∀ i, i ∈ swd_index <$> frames_in (replies (coord s))
        ↔ if animate movie_cfg then
            0 ≤ i < frames0 movie_cfg
            ∨ frames0 movie_cfg ≤ i < frames0 movie_cfg + t_frames movie_cfg
            ∨ (has_xyts movie_cfg = true
               ∧ ∃ q, i = frames movie_cfg + Z.of_nat q
                      ∧ (q < frames_sr movie_cfg)%nat
                      ∧ (xpos movie_cfg q < nt movie_cfg)%nat)
          else i = 0)
  ∧ (animate movie_cfg = true → 0 ≤ frames0 movie_cfg → 0 ≤ t_frames movie_cfg →
     (∀ i, 0 ≤ i < frames movie_cfg + Z.of_nat (frames_sr movie_cfg) →
           i ∈ swd_index <$> frames_in (replies (coord s)))
     ↔ (∀ q, (q < frames_sr movie_cfg)%nat →
             has_xyts movie_cfg = true ∧ (xpos movie_cfg q < nt movie_cfg)%nat)).
Proof.
  apply (X11_rendered_indices movie_cfg _
           (exec_reachable movie_cfg (round_robin 2) 15));
    [simpl; lia|vm_compute; reflexivity].
Defined.

(** X12: every frame is rendered in the end.  When every slave keeps
    asking (no crash, every job returns) and the master is not stopped by
    the division by [meta['t_frames']] in [scale_t] (it is not 0, or there
    is no xyts file), from some moment on the loop has ended and the
    [timeslice] jobs handed out are, up to their order, the frames queued
    before the loop and the dynamic frames whose timeslice exists. *)
Theorem X12_all_frames_eventually cfg sched :
  t_frames cfg ≠ 0 ∨ has_xyts cfg = false →
  fair cfg sched → (0 < nproc0 cfg)%nat →
  ∃ n, ∀ n', (n ≤ n')%nat →
    nproc (coord (exec cfg sched n')) = 0%nat
    ∧ filter (λ y, is_frame y = true) (replies (coord (exec cfg sched n')))
      ≡ₚ expected_frames cfg.
Proof.
  intros Hdiv Hfair HW. destruct (exec_terminates cfg sched Hdiv Hfair) as [n Hn].
  exists n. intros n' Hle. replace n' with (n + (n' - n))%nat by lia.
  rewrite (exec_halted _ _ _ _ Hn). split; [done|].
  apply halted_frames; [apply exec_reachable|done..].
Qed.

Lemma X12_witness :
  ∃ n, ∀ n', (n ≤ n')%nat →
    nproc (coord (exec movie_cfg (round_robin 2) n')) = 0%nat
    ∧ filter (λ y, is_frame y = true)
        (replies (coord (exec movie_cfg (round_robin 2) n')))
      ≡ₚ expected_frames movie_cfg.
Proof.
  apply (X12_all_frames_eventually movie_cfg (round_robin 2));
    [left; vm_compute; discriminate|apply round_robin_fair|simpl; lia].
Defined.

(** ** The reports gathered at the end *)

Lemma replies_logged cfg s :
  reachable cfg s →
  frames_in (replies (coord s))
  ≡ₚ slaves s ≫= (λ sl, omap logged_frame (logbook sl)).
Proof.
  induction 1 as [|s w d s' Hr IH Hen Hreq].
  - simpl. by rewrite bind_replicate_nil.
  - pose proof (reachable_inv _ _ Hr) as H.
    destruct (pass_reply _ _ _ _ _ H Hen Hreq)
      as (finished & sl & m1 & new & x & _ & _ & Hsl & _ & _ & _ & _ & _ & _
          & _ & _ & _ & Hcm & _ & Hsls).
    rewrite (replies_snoc (coord s) _ w x) by done.
    rewrite frames_in_app, IH, Hsls.
    destruct (slave_iter_fields x d sl) as (_ & Hlog & _).
    pose proof (bind_insert_Permutation
                  (λ sl, omap logged_frame (logbook sl)) (slaves s) w
                  (slave_iter x d sl) sl Hsl) as Hp.
    simpl in Hp. rewrite Hlog in Hp.
    apply (Permutation_app_inv_r (omap logged_frame (logbook sl))).
    rewrite Hp. rewrite <- !(assoc_L (++)). apply Permutation_app_head.
    apply Permutation_app_comm.
Qed.

(** X13: the logbooks the master gathers tell the whole run.  When the
    loop has ended, [comm.gather] hands the master one logbook per slave,
    and their [timeslice] records together carry, up to their order, the
    job dictionary of every expected frame once. *)
Theorem X13_reports_hold_every_frame cfg s s' :
  reachable cfg s → (0 < nproc0 cfg)%nat → finish s = Some s' →
  ∃ reports,
    comm (coord s') = comm (coord s) ++ [EvGather reports; EvDisconnect]
    ∧ length reports = nproc0 cfg
    ∧ reports ≫= omap logged_frame ≡ₚ frames_in (expected_frames cfg).
Proof.
  intros Hr HW Hfin. pose proof (reachable_inv _ _ Hr) as H.
  assert (nproc (coord s) = 0%nat) as Hz.
  { unfold finish, loop_guard in Hfin.
    destruct (decide (nproc (coord s) = 0%nat)) as [|Hn]; [done|].
    by rewrite bool_decide_eq_false_2 in Hfin. }
  rewrite (finish_spec _ _ H Hz) in Hfin. injection Hfin as <-.
  exists (logbook <$> slaves s). split_and!; [done|..].
  - by rewrite length_fmap, (inv_slaves_len _ _ H).
  - rewrite list_fmap_bind. rewrite <- (replies_logged _ _ Hr).
    rewrite <- (frames_in_filter (replies (coord s))).
    by apply frames_in_Permutation, halted_frames.
Qed.

Lemma X13_witness :
  let s := exec movie_cfg (round_robin 2) 15 in
  ∃ s', finish s = Some s'
  ∧ ∃ reports,
    comm (coord s') = comm (coord s) ++ [EvGather reports; EvDisconnect]
    ∧ length reports = nproc0 movie_cfg
    ∧ reports ≫= omap logged_frame ≡ₚ frames_in (expected_frames movie_cfg).
Proof.
  intros s. eexists. split; [vm_compute; reflexivity|].
  apply (X13_reports_hold_every_frame movie_cfg s _
           (exec_reachable movie_cfg (round_robin 2) 15)); [simpl; lia|].
  vm_compute. reflexivity.
Defined.
(** ** The timeslices of the xyts file *)

Lemma py_range_NoDup lo hi step : (0 < step)%nat → NoDup (py_range lo hi step).
Proof.
  intros Hs. unfold py_range. apply NoDup_fmap_2; [|apply NoDup_seq].
  intros a b Hab. nia.
Qed.

(** X14: the [load_xyts_ts] jobs queued when [load_xyts] is seen finished
    share the timeslices of the file among them: their loops
    [xrange(job['start'], xfile.nt, job['inc'])] go, together, through
    every timeslice [0 .. nt - 1] exactly once. *)
Theorem X14_shards_cover_timeslices cfg :
  (0 < nproc0 cfg)%nat →
  shards (nproc0 cfg) ≫= ts_loop cfg ≡ₚ seq 0 (nt cfg).
Proof.
  intros HW. unfold shards. rewrite list_fmap_bind.
  apply NoDup_Permutation.
  - apply NoDup_bind; [|intros i _; by apply py_range_NoDup|apply NoDup_seq].
    intros i1 i2 t Hi1%elem_of_seq Hi2%elem_of_seq H1 H2. simpl in H1, H2.
    apply py_range_spec in H1, H2; [|done..].
    eapply in_range_disjoint; [| |exact H1|exact H2]; lia.
  - apply NoDup_seq.
  - intros t. rewrite list_elem_of_bind, elem_of_seq. split.
    + intros (i & Ht & Hi%elem_of_seq). simpl in Ht.
      apply py_range_spec in Ht; [|done].
      apply in_range_spec in Ht as [_ Hlt]; lia.
    + intros [_ Hlt]. exists (t mod nproc0 cfg)%nat.
      assert (t mod nproc0 cfg < nproc0 cfg)%nat as Hm
        by (apply Nat.mod_upper_bound; lia).
      split; [|apply elem_of_seq; lia]. simpl.
      apply py_range_spec; [done|]. apply in_range_spec; [done|]. lia.
Qed.

Lemma X14_witness :
  shards (nproc0 movie_cfg) ≫= ts_loop movie_cfg ≡ₚ seq 0 (nt movie_cfg).
Proof. apply (X14_shards_cover_timeslices movie_cfg). simpl. lia. Defined.
(** ** The division by [meta['t_frames']] *)

Lemma run_stuck cfg sched n s e j :
  run cfg sched n = (s, Some e) → run cfg sched (n + j) = (s, Some e).
Proof.
  intros Hn. induction j as [|j IH]; [by rewrite Nat.add_0_r|].
  rewrite Nat.add_succ_r. simpl. by rewrite IH.
Qed.

(** X15: with [meta['t_frames']] at 0, the pass that sees a [load_xyts_ts]
    entry finished for which some frame is ready raises a ZeroDivisionError
    at [scale_t], before anything is appended or sent; the master is gone,
    and under any schedule the run stays where it was: no slave is sent
    anything any more, [StopIteration] included. *)
Theorem X15_zero_t_frames_stops_master cfg s w k d :
  t_frames cfg = 0 → reachable cfg s → enabled s w = true →
  in_progress (coord s) !! w = Some (Entry (T_load_xyts_ts k)) →
  ready_frames cfg k (nproc0 cfg) ≠ [] →
  master_iter cfg w (coord s) = Raise ZeroDivisionError
  ∧ request cfg w d s = Raise ZeroDivisionError
  ∧ ∀ sched n j,
      run cfg sched n = (s, None) → sched n = (w, d) →
      run cfg sched (S n + j) = (s, Some ZeroDivisionError)
      ∧ exec cfg sched (S n + j) = s.
Proof.
  intros Ht Hr Hen Hw Hne. pose proof (reachable_inv _ _ Hr) as H.
  destruct (enabled_alive _ _ Hen) as (Hn & _).
  destruct (inv_generator_slot _ _ _ _ H Hw) as (Hx & Ha & Hfull); [done|].
  assert (master_iter cfg w (coord s) = Raise ZeroDivisionError) as Hit.
  { unfold master_iter, serve. rewrite Hw. simpl. rewrite Hx, Hfull. simpl.
    destruct (decide (nproc0 cfg = 0%nat)); [lia|].
    rewrite bool_decide_eq_false_2 by done.
    by rewrite bool_decide_eq_true_2 by done. }
  assert (request cfg w d s = Raise ZeroDivisionError) as Hreq.
  { unfold request. by rewrite Hit. }
  split_and!; [done..|]. intros sched n j Hrun Hs.
  assert (run cfg sched (S n) = (s, Some ZeroDivisionError)) as HS.
  { simpl. rewrite Hrun. simpl. unfold tick. rewrite Hs. simpl.
    by rewrite Hen, Hreq. }
  unfold exec. by rewrite (run_stuck _ _ _ _ _ j HS).
Qed.

Lemma X15_witness :
  let s := exec zero_cfg (round_robin 1) 2 in
  master_iter zero_cfg 0 (coord s) = Raise ZeroDivisionError
  ∧ request zero_cfg 0 1%nat s = Raise ZeroDivisionError
  ∧ ∀ sched n j,
      run zero_cfg sched n = (s, None) → sched n = (0%nat, 1%nat) →
      run zero_cfg sched (S n + j) = (s, Some ZeroDivisionError)
      ∧ exec zero_cfg sched (S n + j) = s.
Proof.
  apply (X15_zero_t_frames_stops_master zero_cfg
           (exec zero_cfg (round_robin 1) 2) 0%nat (Shard 0 1) 1%nat);
    [reflexivity|apply exec_reachable|vm_compute; reflexivity
    |vm_compute; reflexivity|vm_compute; discriminate].
Defined.
